(** * AStorageClient: the Python client of the Acapella key-value store

    A shallow embedding of [acapella/kv] (Entry, Transaction,
    TransactionContext, Session and the helpers of [utils/]) and the
    properties of its documented behaviour.

    Python objects live in a store indexed by references, methods are
    computations in a state-and-exception monad, and the HTTP transport is
    an interface: every request handed to it is appended to a log, and its
    answer is a function of that log. *)

From Stdlib Require Import ZArith Lia Ascii.
From stdpp Require Import gmap strings list pretty.

Open Scope Z_scope.

(** ** Python values *)

(** A Python [str] supplied by the caller or by the server is a sequence of
    Unicode code points.  Text the client builds itself (URLs, parameter
    names, messages) is ASCII and is kept in Rocq strings. *)
Definition str := list N.

Definition U (s : string) : str := map N_of_ascii (String.list_ascii_of_string s).

(** What [response.json()] can return, and what a caller may store as a
    value; [JNone] is Python's [None].  Dictionaries keep their items in
    order, the first item with a given key being the one looked up.
    Numbers with a fractional part are left out. *)
#[warnings="-register-all"]
Inductive Json :=
| JNone
| JBool (b : bool)
| JInt (i : Z)
| JStr (s : str)
| JList (l : list Json)
| JDict (d : list (str * Json)).

(** The exceptions the client code can raise or let through.
    Modelled from the spec: [utils/errors.py], which declares [CasError],
    [TransactionNotFoundError], [TransactionCompletedError] and [KvError],
    is not among the sources; they are the conditions of the error
    taxonomy, [KvError] carrying its message. *)
Inductive Exception :=
| ValueError (msg : string)
| TypeError (msg : string)
| KeyError (key : str)
| AttributeError (msg : string)
| RuntimeError (msg : string)
| UnicodeEncodeError
| TimeoutError
| CasError
| TransactionNotFoundError
| TransactionCompletedError
| KvError (msg : string)
| RequestException (msg : string)
| ReferenceError.

Inductive Outcome (A : Type) :=
| Ok (a : A)
| Raise (e : Exception).
Arguments Ok {A} a.
Arguments Raise {A} e.

Definition obind {A B} (o : Outcome A) (k : A -> Outcome B) : Outcome B :=
  match o with
  | Ok a => k a
  | Raise e => Raise e
  end.

(** [for x in l: f(x)] for a body that only checks. *)
Fixpoint for_each {A} (f : A -> Outcome unit) (l : list A) : Outcome unit :=
  match l with
  | [] => Ok tt
  | x :: l' => obind (f x) (fun _ => for_each f l')
  end.

(** ** utils/assertion.py *)

Definition check_key_part (part : str) : Outcome unit :=
  if (length part =? 0)%nat
  then Raise (ValueError "All key parts must not be empty")
  else Ok tt.

Definition check_key (key : list str) : Outcome unit :=
  if (length key =? 0)%nat
  then Raise (ValueError "key must not be empty")
  else for_each check_key_part key.

Definition check_nrw (n r w : Z) : Outcome unit :=
  if n <=? 0 then Raise (ValueError "N parameter must be greater than zero")
  else if n >? 127 then Raise (ValueError "N parameter must be less than 128")
  else if r <=? 0 then Raise (ValueError "R parameter must be greater than zero")
  else if w <=? 0 then Raise (ValueError "W parameter must be greater than zero")
  else if r >? n then Raise (ValueError "R parameter must be less then or equal to N")
  else if w >? n then Raise (ValueError "W parameter must be less then or equal to N")
  else Ok tt.

(** ** utils/http.py *)

Definition raise_if_error (code : Z) : Outcome unit :=
  if code =? 200 then Ok tt
  else if code =? 408 then Raise TimeoutError
  else if code =? 409 then Raise CasError
  else if code =? 410 then Raise TransactionNotFoundError
  else if code =? 412 then Raise TransactionCompletedError
  else Raise (KvError ("Unexpected server error with code " +:+ pretty code)).

(** *** urllib.parse.quote

    [quote(part)] with its defaults: the string is encoded as UTF-8
    (strictly: a lone surrogate raises [UnicodeEncodeError]) and every byte
    outside the unreserved characters and [safe = '/'] is written as a
    percent sign and two upper-case hexadecimal digits.  The unreserved
    characters are those of Python 3.7 and later; before that the tilde was
    escaped too. *)

Definition utf8_encode_char (c : N) : Outcome (list N) :=
  (if c <? 0x80 then Ok [c]
   else if c <? 0x800 then Ok [0xC0 + c / 0x40; 0x80 + c mod 0x40]
   else if c <? 0x10000 then
     if (0xD800 <=? c) && (c <=? 0xDFFF) then Raise UnicodeEncodeError
     else Ok [0xE0 + c / 0x1000; 0x80 + (c / 0x40) mod 0x40; 0x80 + c mod 0x40]
   else if c <? 0x110000 then
     Ok [0xF0 + c / 0x40000; 0x80 + (c / 0x1000) mod 0x40;
         0x80 + (c / 0x40) mod 0x40; 0x80 + c mod 0x40]
   else Raise UnicodeEncodeError)%N.

Fixpoint utf8_encode (s : str) : Outcome (list N) :=
  match s with
  | [] => Ok []
  | c :: s' =>
      obind (utf8_encode_char c) (fun bs =>
      obind (utf8_encode s') (fun bs' => Ok (bs ++ bs')))
  end.

Definition always_safe : string :=
  "ABCDEFGHIJKLMNOPQRSTUVWXYZabcdefghijklmnopqrstuvwxyz0123456789_.-~".

Definition is_safe (safe : string) (b : N) : bool :=
  existsb (N.eqb b) (U (always_safe +:+ safe)).

Definition hex_digit (d : N) : ascii :=
  nth (N.to_nat d) (String.list_ascii_of_string "0123456789ABCDEF") "0"%char.

Definition quote_byte (safe : string) (b : N) : string :=
  if is_safe safe b then String (ascii_of_N b) EmptyString
  else String "%" (String (hex_digit (b / 16))
                     (String (hex_digit (b mod 16)) EmptyString)).

Definition quote_from_bytes (safe : string) (bs : list N) : string :=
  String.concat EmptyString (map (quote_byte safe) bs).

Definition quote (s : str) : Outcome string :=
  obind (utf8_encode s) (fun bs => Ok (quote_from_bytes "/" bs)).

(** [f(x) for x in l], consumed in order: the first failure ends it. *)
Fixpoint map_outcome {A B} (f : A -> Outcome B) (l : list A) : Outcome (list B) :=
  match l with
  | [] => Ok []
  | x :: l' =>
      obind (f x) (fun y => obind (map_outcome f l') (fun ys => Ok (y :: ys)))
  end.

Definition key_to_str (key : list str) : Outcome string :=
  obind (map_outcome quote key) (fun parts => Ok (String.concat ":" parts)).

(** *** The transport

    [AsyncSession] wraps a [requests.Session]; of a request the model keeps
    the method, the URL relative to the base address, the [params]
    dictionary and the [json] argument as the caller passed them. *)

Inductive Method := GET | PUT | POST.

(** Values of the [params] dictionary: [None], an [int], or the seconds of
    a [timedelta], counted in microseconds. *)
Inductive Param :=
| PNone
| PInt (i : Z)
| PSeconds (microseconds : Z).

Record Request := mkRequest {
  method : Method;
  url : string;
  params : list (string * Param);
  json : Json }.

(** [content] is the parsed body, [None] when the body is not JSON. *)
Record Response := mkResponse {
  status_code : Z;
  content : option Json }.

(** The transport answers a request, or raises; what it does may depend on
    everything the client has sent before. *)
Class Transport := transport_send : list Request -> Request -> Outcome Response.

(** Python's [int] on a [str] is a builtin whose grammar is not part of the
    client; the client's behaviour is stated for whatever it returns. *)
Class Builtins := int_of_str : str -> Outcome Z.

(** ** Objects and the store *)

(** The [_session] attribute of every object is the one [AsyncSession] of
    the [Session] that made it, and is not stored again. *)

Record Entry := mkEntry {
  _key : list str;
  _version : Z;
  _value : Json;
  _n : Z;
  _r : Z;
  _w : Z;
  _transaction : option Z }.

Record Transaction := mkTransaction {
  _index : Z;
  _completed : bool }.

(** [_tx] refers to the [Transaction] object that [__aenter__] also hands
    to the guarded block. *)
Record TransactionContext := mkTransactionContext {
  _tx : option nat }.

Record State := mkState {
  requests : list Request;
  entries : gmap nat Entry;
  transactions : gmap nat Transaction;
  contexts : gmap nat TransactionContext }.

Definition M (A : Type) := State -> Outcome A * State.

Definition ret {A} (a : A) : M A := fun st => (Ok a, st).

Definition raise {A} (e : Exception) : M A := fun st => (Raise e, st).

Definition bind {A B} (m : M A) (k : A -> M B) : M B :=
  fun st =>
    match m st with
    | (Ok a, st') => k a st'
    | (Raise e, st') => (Raise e, st')
    end.

Definition lift {A} (o : Outcome A) : M A := fun st => (o, st).

Declare Scope py_scope.
Delimit Scope py_scope with py.
Notation "x <- m ;; k" := (bind m (fun x => k))
  (at level 100, m at next level, k at level 200, right associativity) : py_scope.
Notation "m ;; k" := (bind m (fun _ => k))
  (at level 100, k at level 200, right associativity) : py_scope.
Open Scope py_scope.

(** Attribute access on an object of the store.  A reference always
    designates a live object in Python; [ReferenceError] marks the lookups
    that no program can perform. *)

Definition load_entry (self : nat) : M Entry :=
  fun st =>
    match entries st !! self with
    | Some e => (Ok e, st)
    | None => (Raise ReferenceError, st)
    end.

Definition update_entry (self : nat) (f : Entry -> Entry) : M unit :=
  fun st =>
    (Ok tt, mkState (requests st) (alter f self (entries st))
                    (transactions st) (contexts st)).

Definition new_entry (e : Entry) : M nat :=
  fun st =>
    let self := fresh (dom (entries st)) in
    (Ok self, mkState (requests st) (<[self := e]> (entries st))
                      (transactions st) (contexts st)).

Definition load_transaction (self : nat) : M Transaction :=
  fun st =>
    match transactions st !! self with
    | Some t => (Ok t, st)
    | None => (Raise ReferenceError, st)
    end.

Definition update_transaction (self : nat) (f : Transaction -> Transaction) : M unit :=
  fun st =>
    (Ok tt, mkState (requests st) (entries st)
                    (alter f self (transactions st)) (contexts st)).

Definition new_transaction (t : Transaction) : M nat :=
  fun st =>
    let self := fresh (dom (transactions st)) in
    (Ok self, mkState (requests st) (entries st)
                      (<[self := t]> (transactions st)) (contexts st)).

Definition load_context (self : nat) : M TransactionContext :=
  fun st =>
    match contexts st !! self with
    | Some c => (Ok c, st)
    | None => (Raise ReferenceError, st)
    end.

Definition update_context (self : nat) (f : TransactionContext -> TransactionContext) : M unit :=
  fun st =>
    (Ok tt, mkState (requests st) (entries st) (transactions st)
                    (alter f self (contexts st))).

Definition new_context (c : TransactionContext) : M nat :=
  fun st =>
    let self := fresh (dom (contexts st)) in
    (Ok self, mkState (requests st) (entries st) (transactions st)
                      (<[self := c]> (contexts st))).

Definition set_version (v : Z) (e : Entry) : Entry :=
  mkEntry (_key e) v (_value e) (_n e) (_r e) (_w e) (_transaction e).

Definition set_value (v : Json) (e : Entry) : Entry :=
  mkEntry (_key e) (_version e) v (_n e) (_r e) (_w e) (_transaction e).

Definition set_completed (b : bool) (t : Transaction) : Transaction :=
  mkTransaction (_index t) b.

Definition set_tx (tx : option nat) (c : TransactionContext) : TransactionContext :=
  mkTransactionContext tx.

(** *** AsyncSession *)

Section AsyncSession.
Context {T : Transport}.

Definition request (req : Request) : M Response :=
  fun st =>
    (transport_send (requests st) req,
     mkState (requests st ++ [req]) (entries st) (transactions st) (contexts st)).

Definition AsyncSession_get (url : string) (params : list (string * Param)) : M Response :=
  request (mkRequest GET url params JNone).

Definition AsyncSession_put (url : string) (params : list (string * Param)) (json : Json) : M Response :=
  request (mkRequest PUT url params json).

Definition AsyncSession_post (url : string) : M Response :=
  request (mkRequest POST url [] JNone).

End AsyncSession.

(** *** Reading a response body *)

Definition Response_json (response : Response) : Outcome Json :=
  match content response with
  | Some body => Ok body
  | None => Raise (ValueError "JSONDecodeError")
  end.

Fixpoint dict_lookup (key : str) (d : list (str * Json)) : option Json :=
  match d with
  | [] => None
  | (k, v) :: d' => if decide (k = key) then Some v else dict_lookup key d'
  end.

(** [body[key]] *)
Definition getitem (body : Json) (key : str) : Outcome Json :=
  match body with
  | JDict d =>
      match dict_lookup key d with
      | Some v => Ok v
      | None => Raise (KeyError key)
      end
  | JList _ | JStr _ => Raise (TypeError "indices must be integers")
  | _ => Raise (TypeError "object is not subscriptable")
  end.

(** [body.get(key)] *)
Definition dict_get (body : Json) (key : str) : Outcome Json :=
  match body with
  | JDict d => Ok (default JNone (dict_lookup key d))
  | _ => Raise (AttributeError "object has no attribute 'get'")
  end.

(** [int(x)] *)
Definition int {B : Builtins} (x : Json) : Outcome Z :=
  match x with
  | JInt i => Ok i
  | JBool b => Ok (if b then 1 else 0)
  | JStr s => int_of_str s
  | _ => Raise (TypeError "int() argument must be a string or a number")
  end.

Definition optional_int (x : option Z) : Param :=
  match x with
  | Some i => PInt i
  | None => PNone
  end.

(** ** Entry.py, Transaction.py, TransactionContext.py, Session.py *)

Section Client.
Context {T : Transport} {B : Builtins}.

(** [Entry(session, key, version, value, n, r, w, transaction)] *)
Definition Entry_init (key : list str) (version : Z) (value : Json)
    (n r w : Z) (transaction : option Z) : M nat :=
  lift (check_key key);;
  lift (check_nrw n r w);;
  new_entry (mkEntry key version value n r w transaction).

Definition Entry_url (e : Entry) : M string :=
  key <- lift (key_to_str (_key e));;
  ret ("/v2/kv/keys/" +:+ key).

Definition Entry_params (e : Entry) : list (string * Param) :=
  [("n", PInt (_n e)); ("r", PInt (_r e)); ("w", PInt (_w e));
   ("transaction", optional_int (_transaction e))].

Definition Entry_get (self : nat) : M Json :=
  e <- load_entry self;;
  url <- Entry_url e;;
  response <- AsyncSession_get url (Entry_params e);;
  lift (raise_if_error (status_code response));;
  body <- lift (Response_json response);;
  version <- lift (obind (getitem body (U "version")) int);;
  update_entry self (set_version version);;
  value <- lift (dict_get body (U "value"));;
  update_entry self (set_value value);;
  e' <- load_entry self;;
  ret (_value e').

Definition Entry_listen (self : nat) (wait_version : option Z) (timeout : option Z) : M Json :=
  e <- load_entry self;;
  let wait_version :=
    match wait_version with
    | None => _version e
    | Some v => v
    end in
  let timeout_seconds :=
    match timeout with
    | Some t => PSeconds t
    | None => PNone
    end in
  url <- Entry_url e;;
  response <- AsyncSession_get url
    (Entry_params e ++ [("wait-version", PInt wait_version);
                        ("wait-timeout", timeout_seconds)]);;
  lift (raise_if_error (status_code response));;
  body <- lift (Response_json response);;
  version <- lift (obind (getitem body (U "version")) int);;
  update_entry self (set_version version);;
  value <- lift (dict_get body (U "value"));;
  update_entry self (set_value value);;
  e' <- load_entry self;;
  ret (_value e').

Definition Entry_set (self : nat) (new_value : Json) : M Z :=
  e <- load_entry self;;
  url <- Entry_url e;;
  response <- AsyncSession_put url (Entry_params e) new_value;;
  lift (raise_if_error (status_code response));;
  body <- lift (Response_json response);;
  version <- lift (obind (getitem body (U "version")) int);;
  update_entry self (set_version version);;
  e' <- load_entry self;;
  ret (_version e').

Definition Entry_cas (self : nat) (new_value : Json) (old_version : option Z) : M Z :=
  e <- load_entry self;;
  let old_version :=
    match old_version with
    | None => _version e
    | Some v => v
    end in
  url <- Entry_url e;;
  response <- AsyncSession_put url
    (Entry_params e ++ [("old-version", PInt old_version)]) new_value;;
  lift (raise_if_error (status_code response));;
  body <- lift (Response_json response);;
  version <- lift (obind (getitem body (U "version")) int);;
  update_entry self (set_version version);;
  e' <- load_entry self;;
  ret (_version e').

(** The [value], [version] and [key] properties. *)
Definition Entry_value (self : nat) : M Json :=
  e <- load_entry self;; ret (_value e).

Definition Entry_version (self : nat) : M Z :=
  e <- load_entry self;; ret (_version e).

Definition Entry_key (self : nat) : M (list str) :=
  e <- load_entry self;; ret (_key e).

(** [Transaction(session, index)] *)
Definition Transaction_init (index : Z) : M nat :=
  new_transaction (mkTransaction index false).

Definition Transaction_commit (self : nat) : M unit :=
  t <- load_transaction self;;
  if negb (_completed t) then
    response <- AsyncSession_post ("/v2/tx/" +:+ pretty (_index t) +:+ "/commit");;
    lift (raise_if_error (status_code response));;
    update_transaction self (set_completed true)
  else ret tt.

Definition Transaction_rollback (self : nat) : M unit :=
  t <- load_transaction self;;
  if negb (_completed t) then
    response <- AsyncSession_post ("/v2/tx/" +:+ pretty (_index t) +:+ "/rollback");;
    lift (raise_if_error (status_code response));;
    update_transaction self (set_completed true)
  else ret tt.

Definition Transaction_keep_alive (self : nat) : M unit :=
  t <- load_transaction self;;
  response <- AsyncSession_post ("/v2/tx/" +:+ pretty (_index t) +:+ "/keep-alive");;
  lift (raise_if_error (status_code response)).

Definition Transaction_entry (self : nat) (key : list str) (n r w : Z) : M nat :=
  t <- load_transaction self;;
  Entry_init key 0 JNone n r w (Some (_index t)).

Definition Transaction_get_entry (self : nat) (key : list str) (n r w : Z) : M nat :=
  entry <- Transaction_entry self key n r w;;
  Entry_get entry;;
  ret entry.

Definition Transaction_index (self : nat) : M Z :=
  t <- load_transaction self;; ret (_index t).

(** [TransactionContext(session)] *)
Definition TransactionContext_init : M nat :=
  new_context (mkTransactionContext None).

(** [__enter__] is there for the type checker only. *)
Definition TransactionContext_enter (self : nat) : M nat :=
  raise (RuntimeError EmptyString).

Definition TransactionContext_aenter (self : nat) : M nat :=
  c <- load_context self;;
  match _tx c with
  | Some _ => raise (RuntimeError "This transaction context already in entered state")
  | None =>
      response <- AsyncSession_post "/v2/tx";;
      lift (raise_if_error (status_code response));;
      body <- lift (Response_json response);;
      index <- lift (obind (getitem body (U "index")) int);;
      tx <- Transaction_init index;;
      update_context self (set_tx (Some tx));;
      ret tx
  end.

(** [exc_type] is [None] when the guarded block ended without an
    exception.  The method returns [None], so the exception of the block
    is raised again by the [async with] statement. *)
Definition TransactionContext_aexit (self : nat) (exc_type : option Exception) : M unit :=
  c <- load_context self;;
  match exc_type with
  | None =>
      match _tx c with
      | Some tx => Transaction_commit tx
      | None => raise (AttributeError "'NoneType' object has no attribute 'commit'")
      end
  | Some _ =>
      match _tx c with
      | Some tx => Transaction_rollback tx
      | None => raise (AttributeError "'NoneType' object has no attribute 'rollback'")
      end
  end;;
  update_context self (set_tx None).

(** [async with ctx as tx: block(tx)] *)
Definition async_with {A} (ctx : nat) (block : nat -> M A) : M A :=
  tx <- TransactionContext_aenter ctx;;
  fun st =>
    match block tx st with
    | (Ok a, st1) =>
        match TransactionContext_aexit ctx None st1 with
        | (Ok _, st2) => (Ok a, st2)
        | (Raise e, st2) => (Raise e, st2)
        end
    | (Raise e, st1) =>
        match TransactionContext_aexit ctx (Some e) st1 with
        | (Ok _, st2) => (Raise e, st2)
        | (Raise e', st2) => (Raise e', st2)
        end
    end.

Definition Session_transaction : M nat :=
  TransactionContext_init.

Definition Session_transaction_manual : M nat :=
  response <- AsyncSession_post "/v2/tx";;
  lift (raise_if_error (status_code response));;
  body <- lift (Response_json response);;
  index <- lift (obind (getitem body (U "index")) int);;
  Transaction_init index.

Definition Session_get_entry (key : list str) (n r w : Z) : M nat :=
  entry <- Entry_init key 0 JNone n r w None;;
  Entry_get entry;;
  ret entry.

Definition Session_get_version (key : list str) (n r w : Z) : M Z :=
  key' <- lift (key_to_str key);;
  response <- AsyncSession_get ("/v2/kv/keys/" +:+ key' +:+ "/version")
    [("n", PInt n); ("r", PInt r); ("w", PInt w)];;
  lift (raise_if_error (status_code response));;
  body <- lift (Response_json response);;
  lift (obind (getitem body (U "version")) int).

Definition Session_entry (key : list str) (n r w : Z) : M nat :=
  Entry_init key 0 JNone n r w None.

End Client.

(** ** Transports and stores for the examples *)

(** A server that gives every request the same answer. *)
Definition answering (code : Z) (body : option Json) : Transport :=
  fun _ _ => Ok (mkResponse code body).

(** A server whose i-th answer is the i-th item of a script, and that is
    unreachable once the script is over. *)
Definition scripted (answers : list Response) : Transport :=
  fun log _ =>
    match answers !! List.length log with
    | Some response => Ok response
    | None => Raise (RequestException "connection refused")
    end.

(** An [int] that takes no string for a number. *)
Definition strict_int : Builtins :=
  fun _ => Raise (ValueError "invalid literal for int() with base 10").

Definition version_body (version : Z) : option Json :=
  Some (JDict [(U "version", JInt version)]).

(** A server that accepts everything and numbers every transaction 7. *)
Definition transaction_server : Transport :=
  answering 200 (Some (JDict [(U "index", JInt 7)])).

Definition empty_state : State := mkState [] ∅ ∅ ∅.

(** One transaction, number 7 on the server, active or completed. *)
Definition one_transaction (completed : bool) : State :=
  mkState [] ∅ {[ 0%nat := mkTransaction 7 completed ]} ∅.

(** A context that was entered and holds that transaction. *)
Definition entered_state (completed : bool) : State :=
  mkState [] ∅ {[ 0%nat := mkTransaction 7 completed ]}
          {[ 0%nat := mkTransactionContext (Some 0%nat) ]}.

(** One entry for the key [a] at version 3 with the value 10. *)
Definition one_entry : State :=
  mkState [] {[ 0%nat := mkEntry [U "a"] 3 (JInt 10) 3 2 2 None ]} ∅ ∅.

(** ** Observations used in the statements *)

Section Observations.
Context {T : Transport} {B : Builtins}.

Definition tx_request (t : Transaction) (action : string) : Request :=
  mkRequest POST ("/v2/tx/" +:+ pretty (_index t) +:+ action) [] JNone.

Definition logged (req : Request) (st : State) : State :=
  mkState (requests st ++ [req]) (entries st) (transactions st) (contexts st).

Definition completed_in (self : nat) (st : State) : State :=
  mkState (requests st) (entries st)
          (alter (set_completed true) self (transactions st)) (contexts st).

(** What the server's answer to a request amounts to for the caller. *)
Definition verdict (st : State) (req : Request) : Outcome unit :=
  obind (transport_send (requests st) req)
        (fun response => raise_if_error (status_code response)).

(** The store after the entry at [self] has been replaced by [e]. *)
Definition stored (self : nat) (e : Entry) (st : State) : State :=
  mkState (requests st) (<[self := e]> (entries st)) (transactions st) (contexts st).

(** The version a response carries, as the methods of [Entry] read it. *)
Definition response_version (response : Response) : Outcome Z :=
  obind (raise_if_error (status_code response)) (fun _ =>
  obind (Response_json response) (fun body =>
  obind (getitem body (U "version")) int)).

(** The value a response carries, once its version has been read. *)
Definition response_value (response : Response) : Json :=
  match content response with
  | Some (JDict d) => default JNone (dict_lookup (U "value") d)
  | _ => JNone
  end.

Definition entry_request (e : Entry) (k : string) (method : Method)
    (extra : list (string * Param)) (json : Json) : Request :=
  mkRequest method ("/v2/kv/keys/" +:+ k) (Entry_params e ++ extra) json.

(** The store after the context at [self] has dropped its transaction. *)
Definition idle (self : nat) (st : State) : State :=
  mkState (requests st) (entries st) (transactions st)
          (<[self := mkTransactionContext None]> (contexts st)).

(** The call [__aexit__] makes on the stored transaction. *)
Definition exit_call (tx : nat) (exc_type : option Exception) : M unit :=
  match exc_type with
  | None => Transaction_commit tx
  | Some _ => Transaction_rollback tx
  end.

End Observations.

(** ** UTF-8, read back *)

(** The code points UTF-8 has a form for: the Unicode scalar values. *)
Definition scalar_value (c : N) : Prop :=
  (c < 0xD800 \/ 0xDFFF < c < 0x110000)%N.

Definition utf8_word (c : N) : list N :=
  match utf8_encode_char c with
  | Ok bs => bs
  | Raise _ => []
  end.

(** The code point whose UTF-8 form starts a sequence of bytes. *)
Definition utf8_head (bs : list N) : N :=
  match bs with
  | b0 :: b1 :: b2 :: b3 :: _ =>
      (if b0 <? 0x80 then b0
       else if b0 <? 0xE0 then (b0 - 0xC0) * 0x40 + (b1 - 0x80)
       else if b0 <? 0xF0 then (b0 - 0xE0) * 0x1000 + (b1 - 0x80) * 0x40 + (b2 - 0x80)
       else (b0 - 0xF0) * 0x40000 + (b1 - 0x80) * 0x1000 + (b2 - 0x80) * 0x40 + (b3 - 0x80))%N
  | b0 :: b1 :: b2 :: _ =>
      (if b0 <? 0x80 then b0
       else if b0 <? 0xE0 then (b0 - 0xC0) * 0x40 + (b1 - 0x80)
       else (b0 - 0xE0) * 0x1000 + (b1 - 0x80) * 0x40 + (b2 - 0x80))%N
  | b0 :: b1 :: _ =>
      (if b0 <? 0x80 then b0 else (b0 - 0xC0) * 0x40 + (b1 - 0x80))%N
  | b0 :: _ => b0
  | [] => 0%N
  end.

(** ** Observations for the properties of the remaining methods *)

(** What the methods of an [Entry] never assign: the key, the quorum and
    the transaction index. *)
Definition same_identity (e e' : Entry) : Prop :=
  _key e' = _key e /\ _n e' = _n e /\ _r e' = _r e /\ _w e' = _w e /\
  _transaction e' = _transaction e.

(** The parameters every request for an entry carries. *)
Definition quorum_params (n r w : Z) : list (string * Param) :=
  [("n", PInt n); ("r", PInt r); ("w", PInt w)].

(** An entry whose key and quorum pass the checks of the constructor. *)
Definition valid_entry (e : Entry) : Prop :=
  check_key (_key e) = Ok tt /\ check_nrw (_n e) (_r e) (_w e) = Ok tt.

Definition valid_store (st : State) : Prop :=
  forall self e, entries st !! self = Some e -> valid_entry e.

(** A computation that hands at most [n] requests to the transport and
    takes nothing out of the log. *)
Definition sends {A} (n : nat) (m : M A) : Prop :=
  forall st, exists reqs,
    (List.length reqs <= n)%nat /\ requests (m st).2 = requests st ++ reqs.

(** The characters [quote] lets through, and the output alphabet of
    [key_to_str]. *)
Definition unreserved (c : ascii) : bool :=
  existsb (Ascii.eqb c) (String.list_ascii_of_string always_safe).

Definition wire_char (c : ascii) : bool :=
  unreserved c || existsb (Ascii.eqb c) (String.list_ascii_of_string "/%:").

(** The text of a [str] made of ASCII characters. *)
Definition ascii_text (s : str) : string :=
  String.string_of_list_ascii (map ascii_of_N s).

(** A store with one entry of the transaction 7 and a store with two
    entries, for the examples. *)
Definition transaction_entry : State :=
  mkState [] {[ 0%nat := mkEntry [U "a"] 3 (JInt 10) 3 2 2 (Some 7) ]}
          {[ 0%nat := mkTransaction 7 true ]} ∅.

Definition idle_state : State :=
  mkState [] ∅ ∅ {[ 0%nat := mkTransactionContext None ]}.

Definition value_body (version : Z) (value : Json) : option Json :=
  Some (JDict [(U "version", JInt version); (U "value", value)]).

(** One call of a method of the entry [e] at [self]: at most one request,
    and the entry replaced by one of the same identity. *)
Definition entry_step (self : nat) (e : Entry) (st st' : State) : Prop :=
  exists reqs e',
    (List.length reqs <= 1)%nat /\ same_identity e e' /\
    st' = mkState (requests st ++ reqs) (<[self := e']> (entries st))
                  (transactions st) (contexts st).

(** One call of a method of the transaction [t] at [self]: at most one
    request, the index kept, and the flag set or left as it was. *)
Definition transaction_step (self : nat) (t : Transaction) (st st' : State) : Prop :=
  exists reqs b,
    (List.length reqs <= 1)%nat /\ (_completed t = true -> b = true) /\
    st' = mkState (requests st ++ reqs) (entries st)
                  (<[self := mkTransaction (_index t) b]> (transactions st))
                  (contexts st).

(** A store whose one entry has a key that UTF-8 cannot encode. *)
Definition surrogate_entry : State :=
  mkState [] {[ 0%nat := mkEntry [[0xD800%N]] 0 JNone 3 2 2 None ]} ∅ ∅.

(** The request that begins a transaction and the index its answer
    carries, as [__aenter__] and [transaction_manual] read it. *)
Definition begin_request : Request := mkRequest POST "/v2/tx" [] JNone.

Definition response_index {B : Builtins} (response : Response) : Outcome Z :=
  obind (raise_if_error (status_code response)) (fun _ =>
  obind (Response_json response) (fun body =>
  obind (getitem body (U "index")) int)).

(** The store after a transaction was created at [tx], and after the
    context at [self] took it. *)
Definition begun (tx : nat) (index : Z) (st : State) : State :=
  mkState (requests st) (entries st)
          (<[tx := mkTransaction index false]> (transactions st)) (contexts st).

Definition entered (self tx : nat) (st : State) : State :=
  mkState (requests st) (entries st) (transactions st)
          (<[self := mkTransactionContext (Some tx)]> (contexts st)).

(** *** Programs

    What a program does with the client, as far as the store and the log
    are concerned, is a sequence of calls of the constructor of [Entry] and
    of the methods of the four classes, on whatever objects and with
    whatever arguments. *)

Inductive Call :=
| CallEntry (key : list str) (version : Z) (value : Json) (n r w : Z)
            (transaction : option Z)
| CallEntryGet (self : nat)
| CallEntryListen (self : nat) (wait_version timeout : option Z)
| CallEntrySet (self : nat) (new_value : Json)
| CallEntryCas (self : nat) (new_value : Json) (old_version : option Z)
| CallCommit (self : nat)
| CallRollback (self : nat)
| CallKeepAlive (self : nat)
| CallTransactionEntry (self : nat) (key : list str) (n r w : Z)
| CallTransactionGetEntry (self : nat) (key : list str) (n r w : Z)
| CallAenter (self : nat)
| CallAexit (self : nat) (exc_type : option Exception)
| CallSessionTransaction
| CallSessionTransactionManual
| CallSessionEntry (key : list str) (n r w : Z)
| CallSessionGetEntry (key : list str) (n r w : Z)
| CallSessionGetVersion (key : list str) (n r w : Z).

Section Programs.
Context {T : Transport} {B : Builtins}.

Definition run_call (c : Call) (st : State) : State :=
  match c with
  | CallEntry key version value n r w transaction =>
      (Entry_init key version value n r w transaction st).2
  | CallEntryGet self => (Entry_get self st).2
  | CallEntryListen self wait_version timeout =>
      (Entry_listen self wait_version timeout st).2
  | CallEntrySet self new_value => (Entry_set self new_value st).2
  | CallEntryCas self new_value old_version =>
      (Entry_cas self new_value old_version st).2
  | CallCommit self => (Transaction_commit self st).2
  | CallRollback self => (Transaction_rollback self st).2
  | CallKeepAlive self => (Transaction_keep_alive self st).2
  | CallTransactionEntry self key n r w => (Transaction_entry self key n r w st).2
  | CallTransactionGetEntry self key n r w =>
      (Transaction_get_entry self key n r w st).2
  | CallAenter self => (TransactionContext_aenter self st).2
  | CallAexit self exc_type => (TransactionContext_aexit self exc_type st).2
  | CallSessionTransaction => (Session_transaction st).2
  | CallSessionTransactionManual => (Session_transaction_manual st).2
  | CallSessionEntry key n r w => (Session_entry key n r w st).2
  | CallSessionGetEntry key n r w => (Session_get_entry key n r w st).2
  | CallSessionGetVersion key n r w => (Session_get_version key n r w st).2
  end.

Definition run_calls (cs : list Call) (st : State) : State :=
  fold_left (fun st c => run_call c st) cs st.

End Programs.

(** A computation whose final state is always related to its initial
    state by [R]. *)
Definition keeps {A} (R : State -> State -> Prop) (m : M A) : Prop :=
  forall st, R st (m st).2.

(** How the store may change over time: entries stay, with their
    identity; transactions stay, with their index and, once completed,
    completed; and a store of valid entries stays one. *)
Definition evolves (st st' : State) : Prop :=
  (forall self e, entries st !! self = Some e ->
     exists e', entries st' !! self = Some e' /\ same_identity e e') /\
  (forall self t, transactions st !! self = Some t ->
     exists t', transactions st' !! self = Some t' /\
                _index t' = _index t /\
                (_completed t = true -> _completed t' = true)) /\
  (valid_store st -> valid_store st').

(** * Properties *)

(** ** Validation *)

Lemma for_each_Ok {A} (f : A -> Outcome unit) (l : list A) :
  for_each f l = Ok tt <-> Forall (fun x => f x = Ok tt) l.
Proof.
  induction l as [|x l IH]; simpl.
  - split; [constructor | reflexivity].
  - destruct (f x) as [[]|e] eqn:Hx; simpl.
    + rewrite IH. split; [by constructor | by inversion 1].
    + split; [discriminate | inversion 1; congruence].
Qed.

Lemma for_each_Raise {A} (f : A -> Outcome unit) (l : list A) e :
  for_each f l = Raise e -> exists x, x ∈ l /\ f x = Raise e.
Proof.
  induction l as [|x l IH]; simpl; [discriminate|].
  destruct (f x) as [[]|e'] eqn:Hx; simpl.
  - intros [y [Hy Hfy]]%IH. exists y. split; [by right | done].
  - intros [= ->]. exists x. split; [by left | done].
Qed.

Lemma check_key_part_Ok (part : str) : check_key_part part = Ok tt <-> part <> [].
Proof. unfold check_key_part. destruct part; simpl; split; congruence. Qed.

Lemma check_key_Ok (key : list str) :
  check_key key = Ok tt <-> key <> [] /\ [] ∉ key.
Proof.
  unfold check_key. destruct key as [|p key]; simpl.
  - split; [discriminate | intros [? _]; congruence].
  - change (obind (check_key_part p) (fun _ => for_each check_key_part key))
      with (for_each check_key_part (p :: key)).
    rewrite for_each_Ok, Forall_forall. split.
    + intros Hall. split; [discriminate|]. intros Hin.
      by apply Hall, check_key_part_Ok in Hin.
    + intros [_ Hno] x Hx. apply check_key_part_Ok. intros ->. done.
Qed.

Lemma check_key_fails (key : list str) :
  check_key key = Ok tt \/ exists msg, check_key key = Raise (ValueError msg).
Proof.
  destruct (check_key key) as [[]|e] eqn:Hk; [by left | right].
  unfold check_key in Hk. destruct key as [|p key]; simpl in Hk.
  - injection Hk as <-. eauto.
  - change (for_each check_key_part (p :: key) = Raise e) in Hk.
    apply for_each_Raise in Hk as [x [_ Hx]].
    unfold check_key_part in Hx. destruct (length x =? 0)%nat; [|discriminate].
    injection Hx as <-. eauto.
Qed.

Lemma check_nrw_Ok (n r w : Z) :
  check_nrw n r w = Ok tt <-> 1 <= n <= 127 /\ 1 <= r <= n /\ 1 <= w <= n.
Proof.
  unfold check_nrw.
  repeat match goal with
  | |- context [if ?b then _ else _] => destruct b eqn:?
  end; split; try discriminate; try lia; done.
Qed.

Lemma check_nrw_fails (n r w : Z) :
  check_nrw n r w = Ok tt \/ exists msg, check_nrw n r w = Raise (ValueError msg).
Proof.
  unfold check_nrw.
  repeat match goal with
  | |- context [if ?b then _ else _] => destruct b
  end; eauto.
Qed.

Lemma Entry_init_invalid (key : list str) (version : Z) (value : Json)
    (n r w : Z) (transaction : option Z) (st : State) :
  key = [] \/ [] ∈ key \/ ~ (1 <= n <= 127 /\ 1 <= r <= n /\ 1 <= w <= n) ->
  exists msg,
    Entry_init key version value n r w transaction st = (Raise (ValueError msg), st).
Proof.
  intros Hbad. unfold Entry_init, bind, lift.
  destruct (check_key_fails key) as [Hok | [msg Hmsg]].
  - rewrite Hok. destruct (check_nrw_fails n r w) as [Hok' | [msg Hmsg]].
    + apply check_key_Ok in Hok as [? ?]. apply check_nrw_Ok in Hok'. tauto.
    + rewrite Hmsg. eauto.
  - rewrite Hmsg. eauto.
Qed.

(** C5.  Constructing an [Entry] raises [ValueError] exactly when the key
    has no segment, or has an empty segment, or [n], [r], [w] are outside
    [1 <= n <= 127], [1 <= r <= n], [1 <= w <= n].  Otherwise it succeeds
    without sending a request and the new object holds the arguments as
    given. *)
Theorem Entry_init_validation (key : list str) (version : Z) (value : Json)
    (n r w : Z) (transaction : option Z) (st : State) :
  let self := fresh (dom (entries st)) in
  ((exists msg,
      Entry_init key version value n r w transaction st = (Raise (ValueError msg), st))
   <-> (key = [] \/ [] ∈ key \/ ~ (1 <= n <= 127 /\ 1 <= r <= n /\ 1 <= w <= n)))
  /\ (key <> [] /\ ([] ∉ key) /\ 1 <= n <= 127 /\ 1 <= r <= n /\ 1 <= w <= n ->
      entries st !! self = None /\
      Entry_init key version value n r w transaction st =
        (Ok self,
         mkState (requests st)
                 (<[self := mkEntry key version value n r w transaction]> (entries st))
                 (transactions st) (contexts st))).
Proof.
  intros self. unfold Entry_init, bind, lift, new_entry.
  pose proof (check_key_Ok key) as Hk. pose proof (check_nrw_Ok n r w) as Hq.
  split; [split|].
  - intros [msg Hfail].
    destruct (check_key key) as [[]|e1].
    + destruct (check_nrw n r w) as [[]|e2]; [discriminate|].
      right; right. intros Hb. by apply Hq in Hb.
    + destruct (decide (key = [])) as [|Hne]; [by left | right; left].
      destruct (decide ([] ∈ key)) as [|Hno]; [done|].
      assert (Raise e1 = Ok tt) by (apply Hk; done). discriminate.
  - apply Entry_init_invalid.
  - intros (Hne & Hno & Hb).
    assert (check_key key = Ok tt) as -> by (apply Hk; done).
    assert (check_nrw n r w = Ok tt) as -> by (apply Hq; done).
    split; [|done].
    apply not_elem_of_dom. apply is_fresh.
Qed.

Lemma Entry_init_validation_witness :
  entries empty_state !! 0%nat = None /\
  Entry_init [U "users"; U "42"] 0 JNone 3 2 2 None empty_state =
    (Ok 0%nat,
     mkState [] {[ 0%nat := mkEntry [U "users"; U "42"] 0 JNone 3 2 2 None ]} ∅ ∅).
Proof.
  apply (Entry_init_validation [U "users"; U "42"] 0 JNone 3 2 2 None empty_state).
  split; [discriminate|]. split; [|lia].
  apply (bool_decide_unpack _). vm_compute. exact I.
Defined.

(** ** Status codes *)

Lemma raise_if_error_Ok (code : Z) : raise_if_error code = Ok tt <-> code = 200.
Proof.
  unfold raise_if_error.
  repeat match goal with
  | |- context [if ?c =? ?k then _ else _] => destruct (Z.eqb_spec c k)
  end; split; (discriminate || lia || done).
Qed.

(** C4.  [raise_if_error] returns on 200 and only on 200; 408, 409, 410
    and 412 raise the timeout, CAS-conflict, transaction-not-found and
    transaction-completed conditions, each for that code only; every other
    code raises [KvError] with the code written in its message, so that
    different codes give different errors. *)
Theorem raise_if_error_exact (code : Z) :
  (raise_if_error code = Ok tt <-> code = 200) /\
  (raise_if_error code = Raise TimeoutError <-> code = 408) /\
  (raise_if_error code = Raise CasError <-> code = 409) /\
  (raise_if_error code = Raise TransactionNotFoundError <-> code = 410) /\
  (raise_if_error code = Raise TransactionCompletedError <-> code = 412) /\
  (code ∉ [200; 408; 409; 410; 412] ->
     raise_if_error code =
       Raise (KvError ("Unexpected server error with code " +:+ pretty code)) /\
     forall code', raise_if_error code' = raise_if_error code -> code' = code).
Proof.
  assert (forall c : Z, c ∉ [200; 408; 409; 410; 412] <->
            c <> 200 /\ c <> 408 /\ c <> 409 /\ c <> 410 /\ c <> 412) as Hlist.
  { intros c. rewrite !not_elem_of_cons. split; [tauto|].
    intros ?. repeat split; try tauto. apply not_elem_of_nil. }
  rewrite Hlist. unfold raise_if_error.
  repeat match goal with
  | |- context [if ?c =? ?k then _ else _] =>
      destruct (Z.eqb_spec c k); [subst code|]
  end.
  1-5: repeat split; (discriminate || lia || done).
  repeat split; try (discriminate || lia || done).
  intros code'.
  repeat match goal with
  | |- context [if ?b then _ else _] => destruct b eqn:?
  end; try discriminate.
  intros [= Heq]. by apply (inj pretty).
Qed.

Lemma raise_if_error_exact_witness :
  raise_if_error 503 = Raise (KvError "Unexpected server error with code 503") /\
  forall code', raise_if_error code' = raise_if_error 503 -> code' = 503.
Proof.
  apply (raise_if_error_exact 503).
  apply (bool_decide_unpack _). vm_compute. exact I.
Defined.

(** ** Transactions *)

Section Transactions.
Context {T : Transport}.

Lemma Transaction_commit_active (st : State) (self : nat) (t : Transaction) :
  transactions st !! self = Some t -> _completed t = false ->
  Transaction_commit self st =
    match verdict st (tx_request t "/commit") with
    | Ok _ => (Ok tt, completed_in self (logged (tx_request t "/commit") st))
    | Raise e => (Raise e, logged (tx_request t "/commit") st)
    end.
Proof.
  intros Hself Hflag.
  unfold Transaction_commit, bind, load_transaction. rewrite Hself, Hflag. simpl.
  unfold AsyncSession_post, request, verdict, tx_request, lift.
  destruct (transport_send _ _) as [response|e]; simpl; [|done].
  by destruct (raise_if_error _) as [[]|e].
Qed.

Lemma Transaction_rollback_active (st : State) (self : nat) (t : Transaction) :
  transactions st !! self = Some t -> _completed t = false ->
  Transaction_rollback self st =
    match verdict st (tx_request t "/rollback") with
    | Ok _ => (Ok tt, completed_in self (logged (tx_request t "/rollback") st))
    | Raise e => (Raise e, logged (tx_request t "/rollback") st)
    end.
Proof.
  intros Hself Hflag.
  unfold Transaction_rollback, bind, load_transaction. rewrite Hself, Hflag. simpl.
  unfold AsyncSession_post, request, verdict, tx_request, lift.
  destruct (transport_send _ _) as [response|e]; simpl; [|done].
  by destruct (raise_if_error _) as [[]|e].
Qed.

(** C6.  On a transaction whose completion flag is set, [commit] and
    [rollback] return normally and leave the whole state as it was: no
    request is logged and no object changes. *)
Theorem completed_commit_rollback_noop (st : State) (self : nat) (t : Transaction) :
  transactions st !! self = Some t -> _completed t = true ->
  Transaction_commit self st = (Ok tt, st) /\
  Transaction_rollback self st = (Ok tt, st).
Proof.
  intros Hself Hflag.
  unfold Transaction_commit, Transaction_rollback, bind, load_transaction.
  by rewrite Hself, Hflag.
Qed.

Lemma verdict_Ok (st : State) (req : Request) :
  verdict st req = Ok tt <->
  exists response,
    transport_send (requests st) req = Ok response /\ status_code response = 200.
Proof.
  unfold verdict. destruct (transport_send _ _) as [response|e]; simpl.
  - rewrite raise_if_error_Ok. split; [eauto|].
    by intros [? [[= <-] ?]].
  - split; [discriminate | by intros [? [? _]]].
Qed.

(** The shape shared by [commit] and [rollback] on an active transaction:
    one request; on a 200 answer the flag is set, on anything else the
    error is raised, the object is as before and calling again sends the
    request again. *)
Lemma completing_call (op : nat -> M unit) (action : string) :
  (forall st self t,
     transactions st !! self = Some t -> _completed t = false ->
     op self st =
       match verdict st (tx_request t action) with
       | Ok _ => (Ok tt, completed_in self (logged (tx_request t action) st))
       | Raise e => (Raise e, logged (tx_request t action) st)
       end) ->
  forall st self t,
    transactions st !! self = Some t -> _completed t = false ->
    exists r st',
      op self st = (r, st') /\
      requests st' = requests st ++ [tx_request t action] /\
      ((r = Ok tt /\
        (exists response,
           transport_send (requests st) (tx_request t action) = Ok response /\
           status_code response = 200) /\
        transactions st' !! self = Some (mkTransaction (_index t) true))
       \/
       ((exists e, r = Raise e) /\
        ~ (exists response,
             transport_send (requests st) (tx_request t action) = Ok response /\
             status_code response = 200) /\
        transactions st' = transactions st /\
        requests (op self st').2 = requests st' ++ [tx_request t action])).
Proof.
  intros Hop st self t Hself Hflag.
  rewrite (Hop st self t Hself Hflag).
  destruct (verdict st (tx_request t action)) as [[]|e] eqn:Hv.
  - eexists _, _. split; [done|]. split; [done|]. left.
    split; [done|]. split; [by apply verdict_Ok|].
    simpl. rewrite lookup_alter_eq, Hself. done.
  - eexists _, _. split; [done|]. split; [done|]. right.
    split; [eauto|]. split.
    + intros Hex%verdict_Ok. congruence.
    + split; [done|].
      rewrite (Hop (logged (tx_request t action) st) self t Hself Hflag).
      by destruct (verdict (logged _ _) _) as [[]|?].
Qed.

(** C9.  [commit] and [rollback] on an active transaction send their
    request; the completion flag is set exactly when the transport
    answered with status 200.  After any failure the transaction object
    is unchanged, still active, and the same call sends its request
    again. *)
Theorem completion_only_after_200 (st : State) (self : nat) (t : Transaction) :
  transactions st !! self = Some t -> _completed t = false ->
  (exists r st',
     Transaction_commit self st = (r, st') /\
     requests st' = requests st ++ [tx_request t "/commit"] /\
     ((r = Ok tt /\
       (exists response,
          transport_send (requests st) (tx_request t "/commit") = Ok response /\
          status_code response = 200) /\
       transactions st' !! self = Some (mkTransaction (_index t) true))
      \/
      ((exists e, r = Raise e) /\
       ~ (exists response,
            transport_send (requests st) (tx_request t "/commit") = Ok response /\
            status_code response = 200) /\
       transactions st' = transactions st /\
       requests (Transaction_commit self st').2 =
         requests st' ++ [tx_request t "/commit"]))) /\
  (exists r st',
     Transaction_rollback self st = (r, st') /\
     requests st' = requests st ++ [tx_request t "/rollback"] /\
     ((r = Ok tt /\
       (exists response,
          transport_send (requests st) (tx_request t "/rollback") = Ok response /\
          status_code response = 200) /\
       transactions st' !! self = Some (mkTransaction (_index t) true))
      \/
      ((exists e, r = Raise e) /\
       ~ (exists response,
            transport_send (requests st) (tx_request t "/rollback") = Ok response /\
            status_code response = 200) /\
       transactions st' = transactions st /\
       requests (Transaction_rollback self st').2 =
         requests st' ++ [tx_request t "/rollback"]))).
Proof.
  intros Hself Hflag. split.
  - apply (completing_call Transaction_commit "/commit"); [|done..].
    apply Transaction_commit_active.
  - apply (completing_call Transaction_rollback "/rollback"); [|done..].
    apply Transaction_rollback_active.
Qed.

(** C8.  [keep_alive] sends its request whatever the completion flag says
    and changes no object; what the server answers reaches the caller as
    it is: 410 as [TransactionNotFoundError], 412 as
    [TransactionCompletedError], and an error of the transport as
    itself. *)
Theorem keep_alive_not_blocked (st : State) (self : nat) (t : Transaction) :
  transactions st !! self = Some t ->
  let req := tx_request t "/keep-alive" in
  (forall response,
     transport_send (requests st) req = Ok response ->
     Transaction_keep_alive self st =
       (raise_if_error (status_code response), logged req st) /\
     (status_code response = 410 ->
      Transaction_keep_alive self st = (Raise TransactionNotFoundError, logged req st)) /\
     (status_code response = 412 ->
      Transaction_keep_alive self st = (Raise TransactionCompletedError, logged req st))) /\
  (forall e,
     transport_send (requests st) req = Raise e ->
     Transaction_keep_alive self st = (Raise e, logged req st)).
Proof.
  intros Hself req.
  unfold Transaction_keep_alive, bind, load_transaction. rewrite Hself.
  unfold AsyncSession_post, request, lift. fold (tx_request t "/keep-alive"). fold req.
  split.
  - intros response ->. split; [done|]. split; intros ->; done.
  - intros e ->. done.
Qed.

End Transactions.

Lemma completed_commit_rollback_noop_witness :
  Transaction_commit (T := answering 412 None) 0 (one_transaction true)
    = (Ok tt, one_transaction true) /\
  Transaction_rollback (T := answering 412 None) 0 (one_transaction true)
    = (Ok tt, one_transaction true).
Proof.
  apply (completed_commit_rollback_noop (T := answering 412 None)
           (one_transaction true) 0%nat (mkTransaction 7 true));
    reflexivity.
Defined.

Lemma completion_only_after_200_witness :
  exists r st',
    Transaction_commit (T := answering 500 None) 0 (one_transaction false) = (r, st') /\
    requests st' = [tx_request (mkTransaction 7 false) "/commit"] /\
    transactions st' !! 0%nat = Some (mkTransaction 7 false).
Proof.
  destruct (completion_only_after_200 (T := answering 500 None)
              (one_transaction false) 0%nat (mkTransaction 7 false) eq_refl eq_refl)
    as [(r & st' & Hrun & Hlog & Hcases) _].
  exists r, st'. split; [exact Hrun|]. split; [exact Hlog|].
  destruct Hcases as [(_ & (response & Hsent & Hcode) & _) | (_ & _ & Hsame & _)].
  - injection Hsent as <-. discriminate Hcode.
  - rewrite Hsame. reflexivity.
Defined.

Lemma keep_alive_not_blocked_witness :
  Transaction_keep_alive (T := answering 412 None) 0 (one_transaction true) =
    (Raise TransactionCompletedError,
     logged (tx_request (mkTransaction 7 true) "/keep-alive") (one_transaction true)).
Proof.
  destruct (keep_alive_not_blocked (T := answering 412 None) (one_transaction true) 0%nat
              (mkTransaction 7 true) eq_refl) as [Hanswer _].
  destruct (Hanswer (mkResponse 412 None) eq_refl) as (_ & _ & H412).
  exact (H412 eq_refl).
Defined.

(** ** Entries *)

Section Entries.
Context {T : Transport} {B : Builtins}.

Lemma alter_present {A} (f : A -> A) (m : gmap nat A) (i : nat) (x : A) :
  m !! i = Some x -> alter f i m = <[i := f x]> m.
Proof.
  intros Hi. apply map_eq. intros j.
  destruct (decide (i = j)) as [<-|Hne].
  - by rewrite lookup_alter_eq, lookup_insert_eq, Hi.
  - by rewrite lookup_alter_ne, lookup_insert_ne.
Qed.

Lemma response_version_body (response : Response) (version : Z) :
  response_version response = Ok version ->
  exists d, content response = Some (JDict d).
Proof.
  unfold response_version, Response_json.
  destruct (raise_if_error _); simpl; [|discriminate].
  destruct (content response) as [[]|]; simpl; try discriminate. eauto.
Qed.

(** [set] and [cas] differ in the request only. *)
Lemma Entry_put_run (st : State) (self : nat) (e : Entry) (req : Request) :
  entries st !! self = Some e ->
  (response <- request req;;
   lift (raise_if_error (status_code response));;
   body <- lift (Response_json response);;
   version <- lift (obind (getitem body (U "version")) int);;
   update_entry self (set_version version);;
   e' <- load_entry self;;
   ret (_version e')) st =
  match transport_send (requests st) req with
  | Raise err => (Raise err, logged req st)
  | Ok response =>
      match response_version response with
      | Raise err => (Raise err, logged req st)
      | Ok version => (Ok version, stored self (set_version version e) (logged req st))
      end
  end.
Proof.
  intros Hself. unfold bind, request, lift, response_version.
  destruct (transport_send _ _) as [response|err]; simpl; [|done].
  destruct (raise_if_error _) as [[]|err]; simpl; [|done].
  destruct (Response_json response) as [body|err]; simpl; [|done].
  destruct (obind (getitem body (U "version")) int) as [version|err]; simpl; [|done].
  unfold load_entry, update_entry, stored, ret; simpl.
  rewrite (alter_present _ _ _ _ Hself), lookup_insert_eq. done.
Qed.

Lemma Entry_fetch_run (st : State) (self : nat) (e : Entry) (req : Request) :
  entries st !! self = Some e ->
  (response <- request req;;
   lift (raise_if_error (status_code response));;
   body <- lift (Response_json response);;
   version <- lift (obind (getitem body (U "version")) int);;
   update_entry self (set_version version);;
   value <- lift (dict_get body (U "value"));;
   update_entry self (set_value value);;
   e' <- load_entry self;;
   ret (_value e')) st =
  match transport_send (requests st) req with
  | Raise err => (Raise err, logged req st)
  | Ok response =>
      match response_version response with
      | Raise err => (Raise err, logged req st)
      | Ok version =>
          (Ok (response_value response),
           stored self (set_value (response_value response) (set_version version e))
                  (logged req st))
      end
  end.
Proof.
  intros Hself. unfold bind, request, lift.
  destruct (transport_send _ _) as [response|err]; simpl; [|done].
  destruct (response_version response) as [version|err] eqn:Hv.
  - destruct (response_version_body _ _ Hv) as [d Hd].
    unfold response_version, Response_json in Hv. unfold Response_json, response_value.
    rewrite Hd in *. destruct (raise_if_error _) as [[]|]; simpl in *; [|discriminate].
    rewrite Hv. simpl.
    unfold load_entry, update_entry, stored, ret; simpl.
    rewrite (alter_present _ _ _ _ Hself).
    rewrite (alter_present _ _ _ (set_version version e)) by apply lookup_insert_eq.
    rewrite insert_insert_eq, lookup_insert_eq. done.
  - unfold response_version in Hv.
    destruct (raise_if_error _) as [[]|]; simpl in *; [|by injection Hv as ->].
    destruct (Response_json response) as [body|]; simpl in *; [|by injection Hv as ->].
    rewrite Hv. done.
Qed.

Lemma Entry_cas_run (st : State) (self : nat) (e : Entry) (k : string)
    (new_value : Json) (old_version : option Z) :
  entries st !! self = Some e -> key_to_str (_key e) = Ok k ->
  let req := entry_request e k PUT
               [("old-version", PInt (default (_version e) old_version))] new_value in
  Entry_cas self new_value old_version st =
  match transport_send (requests st) req with
  | Raise err => (Raise err, logged req st)
  | Ok response =>
      match response_version response with
      | Raise err => (Raise err, logged req st)
      | Ok version => (Ok version, stored self (set_version version e) (logged req st))
      end
  end.
Proof.
  intros Hself Hk req. rewrite <- (Entry_put_run st self e req Hself).
  unfold Entry_cas, Entry_url, AsyncSession_put.
  unfold bind at 1, load_entry at 1. rewrite Hself.
  unfold bind at 1. unfold bind at 1, lift at 1. rewrite Hk. unfold ret at 1.
  by destruct old_version.
Qed.

Lemma Entry_set_run (st : State) (self : nat) (e : Entry) (k : string) (new_value : Json) :
  entries st !! self = Some e -> key_to_str (_key e) = Ok k ->
  let req := entry_request e k PUT [] new_value in
  Entry_set self new_value st =
  match transport_send (requests st) req with
  | Raise err => (Raise err, logged req st)
  | Ok response =>
      match response_version response with
      | Raise err => (Raise err, logged req st)
      | Ok version => (Ok version, stored self (set_version version e) (logged req st))
      end
  end.
Proof.
  intros Hself Hk req. rewrite <- (Entry_put_run st self e req Hself).
  unfold Entry_set, Entry_url, AsyncSession_put.
  unfold bind at 1, load_entry at 1. rewrite Hself.
  unfold bind at 1. unfold bind at 1, lift at 1. rewrite Hk. unfold ret at 1.
  unfold req, entry_request. by rewrite app_nil_r.
Qed.

Lemma Entry_get_run (st : State) (self : nat) (e : Entry) (k : string) :
  entries st !! self = Some e -> key_to_str (_key e) = Ok k ->
  let req := entry_request e k GET [] JNone in
  Entry_get self st =
  match transport_send (requests st) req with
  | Raise err => (Raise err, logged req st)
  | Ok response =>
      match response_version response with
      | Raise err => (Raise err, logged req st)
      | Ok version =>
          (Ok (response_value response),
           stored self (set_value (response_value response) (set_version version e))
                  (logged req st))
      end
  end.
Proof.
  intros Hself Hk req. rewrite <- (Entry_fetch_run st self e req Hself).
  unfold Entry_get, Entry_url, AsyncSession_get.
  unfold bind at 1, load_entry at 1. rewrite Hself.
  unfold bind at 1. unfold bind at 1, lift at 1. rewrite Hk. unfold ret at 1.
  unfold req, entry_request. by rewrite app_nil_r.
Qed.

Lemma Entry_listen_run (st : State) (self : nat) (e : Entry) (k : string)
    (wait_version : option Z) (timeout : option Z) :
  entries st !! self = Some e -> key_to_str (_key e) = Ok k ->
  let req := entry_request e k GET
               [("wait-version", PInt (default (_version e) wait_version));
                ("wait-timeout", from_option PSeconds PNone timeout)] JNone in
  Entry_listen self wait_version timeout st =
  match transport_send (requests st) req with
  | Raise err => (Raise err, logged req st)
  | Ok response =>
      match response_version response with
      | Raise err => (Raise err, logged req st)
      | Ok version =>
          (Ok (response_value response),
           stored self (set_value (response_value response) (set_version version e))
                  (logged req st))
      end
  end.
Proof.
  intros Hself Hk req. rewrite <- (Entry_fetch_run st self e req Hself).
  unfold Entry_listen, Entry_url, AsyncSession_get.
  unfold bind at 1, load_entry at 1. rewrite Hself.
  unfold bind at 1. unfold bind at 1, lift at 1. rewrite Hk. unfold ret at 1.
  by destruct wait_version, timeout.
Qed.

(** [get] and [listen] replace the cached version and the cached value
    together, from one response. *)
Lemma Entry_get_refreshes_pair (st st' : State) (self : nat) (e : Entry) (k : string)
    (value : Json) :
  entries st !! self = Some e -> key_to_str (_key e) = Ok k ->
  Entry_get self st = (Ok value, st') ->
  exists response version,
    transport_send (requests st) (entry_request e k GET [] JNone) = Ok response /\
    response_version response = Ok version /\
    value = response_value response /\
    entries st' !! self =
      Some (mkEntry (_key e) version value (_n e) (_r e) (_w e) (_transaction e)).
Proof.
  intros Hself Hk. rewrite (Entry_get_run st self e k Hself Hk).
  destruct (transport_send _ _) as [response|]; [|discriminate].
  destruct (response_version response) as [version|] eqn:Hv; [|discriminate].
  intros [= <- <-]. exists response, version.
  repeat split; try done. simpl. by rewrite lookup_insert_eq.
Qed.

Lemma Entry_listen_refreshes_pair (st st' : State) (self : nat) (e : Entry) (k : string)
    (wait_version timeout : option Z) (value : Json) :
  entries st !! self = Some e -> key_to_str (_key e) = Ok k ->
  Entry_listen self wait_version timeout st = (Ok value, st') ->
  exists version,
    entries st' !! self =
      Some (mkEntry (_key e) version value (_n e) (_r e) (_w e) (_transaction e)).
Proof.
  intros Hself Hk. rewrite (Entry_listen_run st self e k _ _ Hself Hk).
  destruct (transport_send _ _) as [response|]; [|discriminate].
  destruct (response_version response) as [version|] eqn:Hv; [|discriminate].
  intros [= <- <-]. exists version. simpl. by rewrite lookup_insert_eq.
Qed.

(** [set] and [cas] replace the cached version only: the cached value is
    the one the entry had before the call. *)
Lemma Entry_set_value_untouched (st st' : State) (self : nat) (e : Entry) (k : string)
    (new_value : Json) (version : Z) :
  entries st !! self = Some e -> key_to_str (_key e) = Ok k ->
  Entry_set self new_value st = (Ok version, st') ->
  entries st' !! self =
    Some (mkEntry (_key e) version (_value e) (_n e) (_r e) (_w e) (_transaction e)).
Proof.
  intros Hself Hk. rewrite (Entry_set_run st self e k _ Hself Hk).
  destruct (transport_send _ _) as [response|]; [|discriminate].
  destruct (response_version response) as [v|]; [|discriminate].
  intros [= <- <-]. simpl. by rewrite lookup_insert_eq.
Qed.

(** C7.  [cas] sends the cached version as [old-version] when the caller
    gives none.  A 409 answer raises [CasError] and leaves every entry as
    it was.  When [cas] returns a version, the server answered 200 with
    that version, and it is now the cached version. *)
Theorem cas_conflict_and_success (st : State) (self : nat) (e : Entry) (k : string)
    (new_value : Json) (old_version : option Z) :
  entries st !! self = Some e -> key_to_str (_key e) = Ok k ->
  let req := entry_request e k PUT
               [("old-version", PInt (default (_version e) old_version))] new_value in
  requests (Entry_cas self new_value old_version st).2 = requests st ++ [req] /\
  (forall response,
     transport_send (requests st) req = Ok response -> status_code response = 409 ->
     exists st',
       Entry_cas self new_value old_version st = (Raise CasError, st') /\
       entries st' = entries st) /\
  (forall response version,
     transport_send (requests st) req = Ok response ->
     response_version response = Ok version ->
     exists st',
       Entry_cas self new_value old_version st = (Ok version, st') /\
       entries st' !! self =
         Some (mkEntry (_key e) version (_value e) (_n e) (_r e) (_w e) (_transaction e))) /\
  (forall version st',
     Entry_cas self new_value old_version st = (Ok version, st') ->
     (exists response,
        transport_send (requests st) req = Ok response /\
        status_code response = 200 /\
        response_version response = Ok version) /\
     entries st' !! self =
       Some (mkEntry (_key e) version (_value e) (_n e) (_r e) (_w e) (_transaction e))).
Proof.
  intros Hself Hk req. rewrite (Entry_cas_run st self e k _ _ Hself Hk). fold req.
  split; [|split; [|split]].
  - destruct (transport_send _ _) as [response|]; [|done].
    by destruct (response_version response).
  - intros response -> H409. exists (logged req st).
    unfold response_version. rewrite H409. done.
  - intros response version -> ->. eexists. split; [done|].
    simpl. by rewrite lookup_insert_eq.
  - intros version st' Hrun.
    destruct (transport_send _ _) as [response|]; [|discriminate].
    destruct (response_version response) as [v|] eqn:Hv; [|discriminate].
    injection Hrun as -> <-. split.
    + exists response. repeat split; [|done].
      unfold response_version in Hv.
      destruct (raise_if_error (status_code response)) as [[]|] eqn:Hc; [|discriminate].
      by apply raise_if_error_Ok in Hc.
    + simpl. by rewrite lookup_insert_eq.
Qed.

End Entries.

Lemma cas_conflict_and_success_witness :
  exists st',
    Entry_cas (T := answering 409 None) (B := strict_int) 0 (JInt 11) None one_entry =
      (Raise CasError, st') /\
    entries st' = entries one_entry.
Proof.
  destruct (cas_conflict_and_success (T := answering 409 None) (B := strict_int)
              one_entry 0%nat (mkEntry [U "a"] 3 (JInt 10) 3 2 2 None) "a"
              (JInt 11) None eq_refl eq_refl) as (_ & Hconflict & _).
  exact (Hconflict (mkResponse 409 None) eq_refl eq_refl).
Defined.

(** The test [test_cas_failed]: fetch an entry, then [cas] with the
    version after the fetched one; the server refuses and the entry keeps
    what the fetch stored. *)
Example cas_after_get_conflict :
  let server := scripted [mkResponse 200 (version_body 3); mkResponse 409 None] in
  let run :=
    (entry <- Session_get_entry (T := server) (B := strict_int) [U "k"] 3 2 2;;
     version <- Entry_version entry;;
     Entry_cas (T := server) (B := strict_int) entry (JInt 11) (Some (version + 1)))
      empty_state in
  run.1 = Raise CasError /\
  entries run.2 !! 0%nat = Some (mkEntry [U "k"] 3 JNone 3 2 2 None).
Proof. split; vm_compute; reflexivity. Qed.

(** C1.  A successful [set] leaves the cached value as it was: the entry
    cached at version 3 with the value 10 holds, after [set(11)] was
    answered with version 4, the version 4 next to the value 10. *)
Theorem Entry_set_keeps_old_value :
  Entry_set (T := answering 200 (version_body 4)) (B := strict_int) 0 (JInt 11) one_entry =
    (Ok 4,
     stored 0 (mkEntry [U "a"] 4 (JInt 10) 3 2 2 None)
            (logged (entry_request (mkEntry [U "a"] 3 (JInt 10) 3 2 2 None) "a" PUT []
                                   (JInt 11))
                    one_entry)) /\
  entries (Entry_set (T := answering 200 (version_body 4)) (B := strict_int)
             0 (JInt 11) one_entry).2 !! 0%nat
    = Some (mkEntry [U "a"] 4 (JInt 10) 3 2 2 None).
Proof. split; [vm_compute; reflexivity | reflexivity]. Qed.

(** ** Transaction contexts *)

Section Contexts.
Context {T : Transport} {B : Builtins}.

Lemma Transaction_commit_contexts (st : State) (self : nat) :
  contexts (Transaction_commit self st).2 = contexts st.
Proof.
  unfold Transaction_commit, bind, load_transaction.
  destruct (transactions st !! self) as [t|]; [|done].
  destruct (_completed t); simpl; [done|].
  unfold AsyncSession_post, request, lift.
  destruct (transport_send _ _) as [response|]; simpl; [|done].
  by destruct (raise_if_error _) as [[]|].
Qed.

Lemma Transaction_rollback_contexts (st : State) (self : nat) :
  contexts (Transaction_rollback self st).2 = contexts st.
Proof.
  unfold Transaction_rollback, bind, load_transaction.
  destruct (transactions st !! self) as [t|]; [|done].
  destruct (_completed t); simpl; [done|].
  unfold AsyncSession_post, request, lift.
  destruct (transport_send _ _) as [response|]; simpl; [|done].
  by destruct (raise_if_error _) as [[]|].
Qed.

Lemma aexit_run (st : State) (self tx : nat) (exc_type : option Exception) :
  contexts st !! self = Some (mkTransactionContext (Some tx)) ->
  TransactionContext_aexit self exc_type st =
    match exit_call tx exc_type st with
    | (Ok _, st1) => (Ok tt, idle self st1)
    | (Raise e, st1) => (Raise e, st1)
    end.
Proof.
  intros Hself. unfold TransactionContext_aexit, bind, load_context. rewrite Hself.
  simpl.
  assert (contexts (exit_call tx exc_type st).2 !! self
          = Some (mkTransactionContext (Some tx))) as Hkeep.
  { destruct exc_type; simpl;
      by rewrite ?Transaction_commit_contexts, ?Transaction_rollback_contexts. }
  destruct exc_type; simpl in *.
  - destruct (Transaction_rollback tx st) as [[[]|err] st1]; [|done].
    unfold update_context, idle. simpl in *. by rewrite (alter_present _ _ _ _ Hkeep).
  - destruct (Transaction_commit tx st) as [[[]|err] st1]; [|done].
    unfold update_context, idle. simpl in *. by rewrite (alter_present _ _ _ _ Hkeep).
Qed.

(** C2, as the code has it.  Leaving the entered state calls [commit] on
    the stored transaction when the block raised nothing and [rollback]
    otherwise: on an active transaction that is one request to the commit,
    respectively the rollback, address.  When that call returns, the
    context drops the transaction and is idle again.  When that call
    raises, the error goes to the caller and the context still holds the
    transaction. *)
Theorem aexit_commits_or_rolls_back (st : State) (self tx : nat)
    (exc_type : option Exception) :
  contexts st !! self = Some (mkTransactionContext (Some tx)) ->
  (forall st1,
     exit_call tx exc_type st = (Ok tt, st1) ->
     TransactionContext_aexit self exc_type st = (Ok tt, idle self st1) /\
     contexts (idle self st1) !! self = Some (mkTransactionContext None)) /\
  (forall e st1,
     exit_call tx exc_type st = (Raise e, st1) ->
     TransactionContext_aexit self exc_type st = (Raise e, st1) /\
     contexts st1 !! self = Some (mkTransactionContext (Some tx))) /\
  (forall t,
     transactions st !! tx = Some t -> _completed t = false ->
     requests (TransactionContext_aexit self exc_type st).2 =
       requests st ++ [tx_request t (match exc_type with
                                     | None => "/commit"
                                     | Some _ => "/rollback"
                                     end)]).
Proof.
  intros Hself. rewrite (aexit_run st self tx exc_type Hself).
  split; [|split].
  - intros st1 ->. split; [done|]. simpl. by rewrite lookup_insert_eq.
  - intros e st1 Hcall. rewrite Hcall. split; [done|].
    replace st1 with (exit_call tx exc_type st).2 by by rewrite Hcall.
    destruct exc_type; simpl;
      by rewrite ?Transaction_commit_contexts, ?Transaction_rollback_contexts.
  - intros t Htx Hflag. destruct exc_type; simpl.
    + rewrite (Transaction_rollback_active st tx t Htx Hflag).
      by destruct (verdict st _) as [[]|].
    + rewrite (Transaction_commit_active st tx t Htx Hflag).
      by destruct (verdict st _) as [[]|].
Qed.

(** Whatever way the guarded block ends, [async with] runs [__aexit__]:
    with no exception when the block returned, with the exception of the
    block when it raised. *)
Lemma async_with_exits {A} (st st0 st1 : State) (ctx tx : nat) (block : nat -> M A)
    (r : Outcome A) :
  TransactionContext_aenter ctx st = (Ok tx, st0) ->
  block tx st0 = (r, st1) ->
  (async_with ctx block st).2 =
    (TransactionContext_aexit ctx
       (match r with Ok _ => None | Raise e => Some e end) st1).2.
Proof.
  intros Henter Hblock. unfold async_with, bind. rewrite Henter, Hblock.
  destruct r as [a|e].
  - by destruct (TransactionContext_aexit ctx None st1) as [[[]|] ?].
  - by destruct (TransactionContext_aexit ctx (Some e) st1) as [[[]|] ?].
Qed.

End Contexts.

Lemma aexit_commits_or_rolls_back_witness :
  TransactionContext_aexit (T := answering 200 None) 0 None (entered_state false) =
    (Ok tt, idle 0 (completed_in 0
                      (logged (tx_request (mkTransaction 7 false) "/commit")
                              (entered_state false)))).
Proof.
  destruct (aexit_commits_or_rolls_back (T := answering 200 None)
              (entered_state false) 0%nat 0%nat None eq_refl) as (Hreturn & _).
  exact (proj1 (Hreturn _ eq_refl)).
Defined.

(** C2, as stated, fails: when the server answers the commit with 500,
    [__aexit__] raises and the context still holds its transaction. *)
Lemma aexit_failed_commit_stays_entered :
  TransactionContext_aexit (T := answering 500 None) 0 None (entered_state false) =
    (Raise (KvError "Unexpected server error with code 500"),
     logged (tx_request (mkTransaction 7 false) "/commit") (entered_state false)) /\
  contexts (TransactionContext_aexit (T := answering 500 None) 0 None
              (entered_state false)).2 !! 0%nat
    = Some (mkTransactionContext (Some 0%nat)) /\
  contexts (TransactionContext_aexit (T := answering 500 None) 0 None
              (entered_state false)).2 !! 0%nat
    <> Some (mkTransactionContext None).
Proof. split; [vm_compute; reflexivity|]. split; [reflexivity | discriminate]. Qed.

(** The test [test_tx_rollback]: the block rolls the transaction back
    through the object [__aenter__] gave it, and the commit at the exit
    finds the flag set and sends nothing. *)
Example async_with_manual_rollback :
  map url (requests (async_with (T := transaction_server) (B := strict_int) 0
                                (Transaction_rollback (T := transaction_server))
                                (Session_transaction empty_state).2).2)
    = ["/v2/tx"; "/v2/tx/7/rollback"].
Proof. vm_compute. reflexivity. Qed.

(** The test [test_create_tx]: a block that returns is followed by a
    commit, after which the context is idle. *)
Example async_with_commits :
  map url (requests (async_with (T := transaction_server) (B := strict_int) 0
                                (fun _ => ret tt)
                                (Session_transaction empty_state).2).2)
    = ["/v2/tx"; "/v2/tx/7/commit"] /\
  contexts (async_with (T := transaction_server) (B := strict_int) 0
                       (fun _ => ret tt)
                       (Session_transaction empty_state).2).2 !! 0%nat
    = Some (mkTransactionContext None).
Proof. split; vm_compute; reflexivity. Qed.

(** The test [test_rollback_if_error]: a block that raises is followed by
    a rollback, and its exception comes out of the statement. *)
Example async_with_rolls_back :
  (async_with (T := transaction_server) (B := strict_int) 0
              (fun _ => raise (A := unit) (RuntimeError "boom"))
              (Session_transaction empty_state).2).1
    = Raise (RuntimeError "boom") /\
  map url (requests (async_with (T := transaction_server) (B := strict_int) 0
                                (fun _ => raise (A := unit) (RuntimeError "boom"))
                                (Session_transaction empty_state).2).2)
    = ["/v2/tx"; "/v2/tx/7/rollback"].
Proof. split; vm_compute; reflexivity. Qed.

(** Entering a context twice is refused before anything is sent. *)
Example aenter_twice :
  TransactionContext_aenter (T := transaction_server) (B := strict_int) 0
                            (entered_state false)
    = (Raise (RuntimeError "This transaction context already in entered state"),
       entered_state false).
Proof. reflexivity. Qed.

(** ** Session *)

Section Sessions.
Context {T : Transport} {B : Builtins}.

(** The operations that build an [Entry] check the key before anything is
    sent. *)
Lemma entry_operations_validate (st : State) (key : list str) (n r w : Z)
    (tx : nat) (t : Transaction) :
  key = [] \/ [] ∈ key ->
  transactions st !! tx = Some t ->
  (exists msg, Session_entry key n r w st = (Raise (ValueError msg), st)) /\
  (exists msg, Session_get_entry key n r w st = (Raise (ValueError msg), st)) /\
  (exists msg, Transaction_entry tx key n r w st = (Raise (ValueError msg), st)) /\
  (exists msg, Transaction_get_entry tx key n r w st = (Raise (ValueError msg), st)).
Proof.
  intros Hbad Htx.
  assert (forall version value transaction, exists msg,
            Entry_init key version value n r w transaction st
            = (Raise (ValueError msg), st)) as Hinit.
  { intros. apply Entry_init_invalid. tauto. }
  unfold Session_entry, Session_get_entry, Transaction_get_entry, Transaction_entry.
  unfold bind, load_transaction. rewrite Htx.
  destruct (Hinit 0 JNone None) as [msg1 ->].
  destruct (Hinit 0 JNone (Some (_index t))) as [msg2 ->]. eauto 10.
Qed.

Lemma Session_get_version_run (st : State) (key : list str) (k : string) (n r w : Z) :
  key_to_str key = Ok k ->
  let req := mkRequest GET ("/v2/kv/keys/" +:+ k +:+ "/version")
               [("n", PInt n); ("r", PInt r); ("w", PInt w)] JNone in
  Session_get_version key n r w st =
    (obind (transport_send (requests st) req) response_version, logged req st).
Proof.
  intros Hk req. unfold Session_get_version, bind, lift. rewrite Hk.
  unfold AsyncSession_get, request. fold req.
  destruct (transport_send (requests st) req) as [response|]; simpl; [|done].
  unfold response_version.
  destruct (raise_if_error _) as [[]|]; simpl; [|done].
  by destruct (Response_json response) as [body|].
Qed.

(** C3.  [get_version] does not check its key: for the key without
    segments, and for the key made of one empty segment, it sends a
    request for the address [/v2/kv/keys//version]. *)
Theorem get_version_sends_unvalidated_key (st : State) (n r w : Z) :
  let req := mkRequest GET "/v2/kv/keys//version"
               [("n", PInt n); ("r", PInt r); ("w", PInt w)] JNone in
  Session_get_version [] n r w st =
    (obind (transport_send (requests st) req) response_version, logged req st) /\
  Session_get_version [[]] n r w st =
    (obind (transport_send (requests st) req) response_version, logged req st).
Proof.
  split.
  - by apply (Session_get_version_run st [] EmptyString).
  - by apply (Session_get_version_run st [[]] EmptyString).
Qed.

End Sessions.

(** With a server that answers, [get_version] of the key without segments
    returns a version. *)
Example get_version_empty_key_returns :
  (Session_get_version (T := answering 200 (version_body 0)) (B := strict_int)
     [] 3 2 2 empty_state).1 = Ok 0.
Proof. reflexivity. Qed.

(** ** The wire form of keys *)

Local Abbreviation chars := String.list_ascii_of_string.

Lemma chars_app (s1 s2 : string) : chars (s1 +:+ s2) = chars s1 ++ chars s2.
Proof. induction s1 as [|c s1 IH]; simpl; [done | by rewrite IH]. Qed.

Lemma chars_inj (s1 s2 : string) : chars s1 = chars s2 -> s1 = s2.
Proof.
  intros Heq.
  rewrite <- (String.string_of_list_ascii_of_string s1),
          <- (String.string_of_list_ascii_of_string s2).
  by rewrite Heq.
Qed.

(** A code whose words are not empty and of which none starts another
    can be read back word by word. *)
Lemma prefix_code_inj {A X} (code : A -> list X) (P : A -> Prop) :
  (forall a, P a -> code a <> []) ->
  (forall a1 a2 r1 r2, P a1 -> P a2 -> code a1 ++ r1 = code a2 ++ r2 -> a1 = a2) ->
  forall l1 l2,
    Forall P l1 -> Forall P l2 ->
    flat_map code l1 = flat_map code l2 -> l1 = l2.
Proof.
  intros Hne Hprefix l1.
  induction l1 as [|a1 l1 IH]; intros [|a2 l2] H1 H2; simpl; intros Heq.
  - done.
  - apply Forall_cons in H2 as [Ha2 _]. symmetry in Heq.
    apply app_eq_nil in Heq as [Heq _]. by apply Hne in Heq.
  - apply Forall_cons in H1 as [Ha1 _].
    apply app_eq_nil in Heq as [Heq _]. by apply Hne in Heq.
  - apply Forall_cons in H1 as [Ha1 H1]. apply Forall_cons in H2 as [Ha2 H2].
    pose proof (Hprefix _ _ _ _ Ha1 Ha2 Heq) as ->.
    apply app_inv_head in Heq. f_equal. by apply IH.
Qed.

(** *** UTF-8 *)

Local Ltac Zify.zify_post_hook ::= Z.to_euclidean_division_equations.

Ltac split_ranges :=
  repeat match goal with
  | |- context [(?a <? ?b)%N] => destruct (N.ltb_spec a b)
  | |- context [(?a <=? ?b)%N] => destruct (N.leb_spec a b)
  | H : context [(?a <? ?b)%N] |- _ => destruct (N.ltb_spec a b)
  | H : context [(?a <=? ?b)%N] |- _ => destruct (N.leb_spec a b)
  end; simpl in *.

Lemma utf8_encode_char_Ok (c : N) :
  scalar_value c <-> exists bs, utf8_encode_char c = Ok bs.
Proof.
  unfold scalar_value, utf8_encode_char.
  split_ranges; split; try (intros [bs Hbs]; discriminate); eauto; lia.
Qed.

Lemma utf8_word_bytes (c : N) : Forall (fun b => (b < 256)%N) (utf8_word c).
Proof.
  unfold utf8_word, utf8_encode_char.
  split_ranges; repeat constructor; lia.
Qed.

Lemma utf8_word_nonempty (c : N) : scalar_value c -> utf8_word c <> [].
Proof.
  intros [bs Hbs]%utf8_encode_char_Ok. unfold utf8_word. rewrite Hbs.
  unfold utf8_encode_char in Hbs. split_ranges; by simplify_eq.
Qed.

Lemma utf8_head_word (c : N) (r : list N) :
  scalar_value c -> utf8_head (utf8_word c ++ r) = c.
Proof.
  intros Hc. unfold scalar_value in Hc. unfold utf8_word, utf8_encode_char.
  destruct (N.ltb_spec c 0x80).
  { simpl. destruct r as [|? [|? [|? ?]]]; simpl; try done;
      by destruct (N.ltb_spec c 0x80); [|lia]. }
  destruct (N.ltb_spec c 0x800).
  { assert (0xC0 + c / 0x40 < 0xE0 /\ 0x80 <= 0xC0 + c / 0x40)%N as [? ?] by lia.
    simpl. destruct r as [|? [|? ?]]; simpl;
      (destruct (N.ltb_spec (0xC0 + c / 0x40) 0x80); [lia|]);
      try (destruct (N.ltb_spec (0xC0 + c / 0x40) 0xE0); [|lia]); lia. }
  destruct (N.ltb_spec c 0x10000).
  { destruct (N.leb_spec 0xD800 c), (N.leb_spec c 0xDFFF); simpl; try lia.
    all: assert (0xE0 + c / 0x1000 < 0xF0 /\ 0xE0 <= 0xE0 + c / 0x1000)%N as [? ?] by lia.
    all: destruct r as [|? ?]; simpl;
      (destruct (N.ltb_spec (0xE0 + c / 0x1000) 0x80); [lia|]);
      (destruct (N.ltb_spec (0xE0 + c / 0x1000) 0xE0); [lia|]);
      try (destruct (N.ltb_spec (0xE0 + c / 0x1000) 0xF0); [|lia]); lia. }
  destruct (N.ltb_spec c 0x110000); [|lia].
  assert (0xF0 <= 0xF0 + c / 0x40000)%N by lia.
  simpl.
  destruct (N.ltb_spec (0xF0 + c / 0x40000) 0x80); [lia|].
  destruct (N.ltb_spec (0xF0 + c / 0x40000) 0xE0); [lia|].
  destruct (N.ltb_spec (0xF0 + c / 0x40000) 0xF0); [lia|]. lia.
Qed.

Lemma utf8_word_prefix (c1 c2 : N) (r1 r2 : list N) :
  scalar_value c1 -> scalar_value c2 ->
  utf8_word c1 ++ r1 = utf8_word c2 ++ r2 -> c1 = c2.
Proof.
  intros Hc1 Hc2 Heq.
  rewrite <- (utf8_head_word c1 r1 Hc1), <- (utf8_head_word c2 r2 Hc2).
  by rewrite Heq.
Qed.

Lemma utf8_encode_words (s : str) (bs : list N) :
  utf8_encode s = Ok bs <-> Forall scalar_value s /\ bs = flat_map utf8_word s.
Proof.
  revert bs. induction s as [|c s IH]; intros bs; simpl.
  - split; [intros [= <-]; by split | by intros [_ ->]].
  - unfold utf8_word at 1.
    destruct (utf8_encode_char c) as [w|e] eqn:Hc; simpl.
    + assert (scalar_value c) as Hsc by (apply utf8_encode_char_Ok; eauto).
      destruct (utf8_encode s) as [bs'|e]; simpl.
      * destruct (proj1 (IH bs') eq_refl) as [Hs ->].
        split; [intros [= <-]; split; [by constructor | done] | by intros [_ ->]].
      * split; [discriminate|]. intros [[_ Hs]%Forall_cons _].
        discriminate (proj2 (IH (flat_map utf8_word s)) (conj Hs eq_refl)).
    + split; [discriminate|]. intros [[Hsc _]%Forall_cons _].
      apply utf8_encode_char_Ok in Hsc as [w Hw]. congruence.
Qed.

Lemma utf8_encode_inj (s1 s2 : str) (bs : list N) :
  utf8_encode s1 = Ok bs -> utf8_encode s2 = Ok bs -> s1 = s2.
Proof.
  intros [H1 ->]%utf8_encode_words [H2 Heq]%utf8_encode_words.
  apply (prefix_code_inj utf8_word scalar_value); try done.
  - apply utf8_word_nonempty.
  - apply utf8_word_prefix.
Qed.

Lemma utf8_encode_bytes (s : str) (bs : list N) :
  utf8_encode s = Ok bs -> Forall (fun b => (b < 256)%N) bs.
Proof.
  intros [_ ->]%utf8_encode_words. apply Forall_flat_map.
  apply Forall_forall. intros c _. apply utf8_word_bytes.
Qed.

(** *** Percent-encoding *)

Lemma append_empty_r (s : string) : s +:+ EmptyString = s.
Proof.
  induction s as [|c s IH]; [done|].
  change (String c (s +:+ EmptyString) = String c s). by rewrite IH.
Qed.

Lemma concat_empty_cons (x : string) (l : list string) :
  String.concat EmptyString (x :: l) = x +:+ String.concat EmptyString l.
Proof. destruct l; [symmetry; apply append_empty_r | done]. Qed.

Lemma chars_quote_from_bytes (safe : string) (bs : list N) :
  chars (quote_from_bytes safe bs) = flat_map (fun b => chars (quote_byte safe b)) bs.
Proof.
  unfold quote_from_bytes. induction bs as [|b bs IH]; [done|].
  rewrite map_cons, concat_empty_cons, chars_app, IH. done.
Qed.

Lemma hex_digit_inj (d1 d2 : N) :
  (d1 < 16)%N -> (d2 < 16)%N -> hex_digit d1 = hex_digit d2 -> d1 = d2.
Proof.
  intros H1 H2. unfold hex_digit.
  assert (N.to_nat d1 < 16 /\ N.to_nat d2 < 16)%nat as [Hn1 Hn2] by lia.
  intros Heq. apply N2Nat.inj. revert Hn1 Hn2 Heq.
  generalize (N.to_nat d1) (N.to_nat d2). intros n1 n2 Hn1 Hn2.
  do 16 (destruct n1 as [|n1]; [do 16 (destruct n2 as [|n2]; [done || discriminate|]); lia|]).
  lia.
Qed.

Lemma hex_digit_not_colon (d : N) : hex_digit d <> ":"%char.
Proof.
  unfold hex_digit. generalize (N.to_nat d). intros n.
  do 16 (destruct n as [|n]; [simpl; discriminate|]).
  destruct n; simpl; discriminate.
Qed.

Lemma safe_byte_char (b : N) (c : ascii) :
  (b < 256)%N -> is_safe "/" (N_of_ascii c) = false -> is_safe "/" b = true ->
  ascii_of_N b <> c.
Proof.
  intros Hb Hc Hsafe <-. rewrite N_ascii_embedding in Hc by done. congruence.
Qed.

Lemma quote_byte_prefix (b1 b2 : N) (r1 r2 : list ascii) :
  (b1 < 256)%N -> (b2 < 256)%N ->
  chars (quote_byte "/" b1) ++ r1 = chars (quote_byte "/" b2) ++ r2 -> b1 = b2.
Proof.
  intros Hb1 Hb2. unfold quote_byte.
  destruct (is_safe "/" b1) eqn:Hs1, (is_safe "/" b2) eqn:Hs2; simpl.
  - intros [= Heq _].
    by rewrite <- (N_ascii_embedding b1), <- (N_ascii_embedding b2), Heq.
  - intros [= Heq _]. by apply (safe_byte_char b1 "%") in Heq.
  - intros [= Heq _]. symmetry in Heq. by apply (safe_byte_char b2 "%") in Heq.
  - intros [= Hhi Hlo _].
    apply hex_digit_inj in Hhi; [|lia..]. apply hex_digit_inj in Hlo; [|lia..]. lia.
Qed.

Lemma quote_from_bytes_inj (bs1 bs2 : list N) :
  Forall (fun b => (b < 256)%N) bs1 -> Forall (fun b => (b < 256)%N) bs2 ->
  quote_from_bytes "/" bs1 = quote_from_bytes "/" bs2 -> bs1 = bs2.
Proof.
  intros H1 H2 Heq.
  apply (prefix_code_inj (fun b => chars (quote_byte "/" b)) (fun b => (b < 256)%N));
    try done.
  - intros b _. unfold quote_byte. by destruct (is_safe "/" b).
  - apply quote_byte_prefix.
  - by rewrite <- !chars_quote_from_bytes, Heq.
Qed.

Lemma quote_inj (s1 s2 : str) (q : string) :
  quote s1 = Ok q -> quote s2 = Ok q -> s1 = s2.
Proof.
  unfold quote.
  destruct (utf8_encode s1) as [bs1|] eqn:H1; simpl; [|discriminate].
  destruct (utf8_encode s2) as [bs2|] eqn:H2; simpl; [|discriminate].
  intros [= <-] [= Heq].
  apply quote_from_bytes_inj in Heq; eauto using utf8_encode_bytes.
  subst bs2. by apply (utf8_encode_inj s1 s2 bs1).
Qed.

(** The separator does not occur in what [quote] returns. *)
Lemma quote_no_colon (s : str) (q : string) :
  quote s = Ok q -> ":"%char ∉ chars q.
Proof.
  unfold quote.
  destruct (utf8_encode s) as [bs|] eqn:Hbs; simpl; [|discriminate].
  intros [= <-]. rewrite chars_quote_from_bytes.
  apply utf8_encode_bytes in Hbs.
  intros [b [Hb Hin]]%list_elem_of_In%in_flat_map.
  apply list_elem_of_In in Hb, Hin.
  rewrite Forall_forall in Hbs. specialize (Hbs b Hb).
  unfold quote_byte in Hin. destruct (is_safe "/" b) eqn:Hsafe; simpl in Hin.
  - apply list_elem_of_singleton in Hin. symmetry in Hin.
    by apply (safe_byte_char b ":") in Hin.
  - apply elem_of_cons in Hin as [Hin | Hin]; [discriminate|].
    apply elem_of_cons in Hin as [Hin | Hin].
    { symmetry in Hin. by apply hex_digit_not_colon in Hin. }
    apply list_elem_of_singleton in Hin.
    symmetry in Hin. by apply hex_digit_not_colon in Hin.
Qed.

(** *** Joining the segments *)

Lemma colon_prefix (p1 p2 r1 r2 : list ascii) :
  ":"%char ∉ p1 -> ":"%char ∉ p2 ->
  (r1 = [] \/ exists r, r1 = ":"%char :: r) ->
  (r2 = [] \/ exists r, r2 = ":"%char :: r) ->
  p1 ++ r1 = p2 ++ r2 -> p1 = p2 /\ r1 = r2.
Proof.
  revert p2. induction p1 as [|c p1 IH]; intros [|c' p2] Hp1 Hp2 Hr1 Hr2; simpl.
  - done.
  - intros ->. destruct Hr1 as [|[r [= -> _]]]; [done|].
    exfalso. apply Hp2. by left.
  - intros <-. destruct Hr2 as [|[r [= -> _]]]; [done|].
    exfalso. apply Hp1. by left.
  - intros [= -> Heq].
    apply not_elem_of_cons in Hp1 as [_ Hp1]. apply not_elem_of_cons in Hp2 as [_ Hp2].
    destruct (IH p2 Hp1 Hp2 Hr1 Hr2 Heq) as [-> ->]. done.
Qed.

Lemma chars_concat_colon (x : string) (l : list string) :
  chars (String.concat ":" (x :: l)) =
  chars x ++ match l with
             | [] => []
             | _ :: _ => ":"%char :: chars (String.concat ":" l)
             end.
Proof.
  destruct l as [|y l]; [by rewrite app_nil_r|].
  change (String.concat ":" (x :: y :: l))
    with (x +:+ ":" +:+ String.concat ":" (y :: l)).
  by rewrite !chars_app.
Qed.

Lemma concat_colon_inj (l1 l2 : list string) :
  l1 <> [] -> l2 <> [] ->
  Forall (fun q => ":"%char ∉ chars q) l1 ->
  Forall (fun q => ":"%char ∉ chars q) l2 ->
  String.concat ":" l1 = String.concat ":" l2 -> l1 = l2.
Proof.
  revert l2. induction l1 as [|x1 l1 IH]; intros [|x2 l2] Hne1 Hne2 H1 H2 Heq; try done.
  apply Forall_cons in H1 as [Hx1 H1]. apply Forall_cons in H2 as [Hx2 H2].
  apply (f_equal chars) in Heq. rewrite !chars_concat_colon in Heq.
  apply colon_prefix in Heq as [Hx Htail]; try done.
  - apply chars_inj in Hx as ->. f_equal.
    destruct l1 as [|y1 l1], l2 as [|y2 l2]; try done.
    injection Htail as Htail. apply chars_inj in Htail. by apply IH.
  - destruct l1; eauto.
  - destruct l2; eauto.
Qed.

Lemma map_outcome_Ok {A B} (f : A -> Outcome B) (l : list A) (ys : list B) :
  map_outcome f l = Ok ys <-> Forall2 (fun x y => f x = Ok y) l ys.
Proof.
  revert ys. induction l as [|x l IH]; intros ys; simpl.
  - split; [intros [= <-]; constructor | by inversion 1].
  - destruct (f x) as [y|e] eqn:Hx; simpl.
    + destruct (map_outcome f l) as [ys'|e]; simpl.
      * split.
        -- intros [= <-]. constructor; [done | by apply IH].
        -- inversion 1 as [|? y' ? ys'' Hy Hys]; subst.
           apply IH in Hys. congruence.
      * split; [discriminate|].
        inversion 1 as [|? y' ? ys'' Hy Hys]; subst. by apply IH in Hys.
    + split; [discriminate|]. inversion 1; congruence.
Qed.

Lemma key_to_str_parts (key : list str) (s : string) :
  key_to_str key = Ok s <->
  exists parts,
    Forall2 (fun part q => quote part = Ok q) key parts /\ s = String.concat ":" parts.
Proof.
  unfold key_to_str. destruct (map_outcome quote key) as [parts|e] eqn:Hparts; simpl.
  - apply map_outcome_Ok in Hparts. split.
    + intros [= <-]. eauto.
    + intros (parts' & Hparts' & ->). f_equal. f_equal.
      revert parts' Hparts'. induction Hparts; inversion 1; subst; [done|].
      f_equal; [congruence | eauto].
  - split; [discriminate|]. intros (parts & Hparts' & _).
    apply map_outcome_Ok in Hparts'. congruence.
Qed.

Lemma quoted_parts_inj (key1 key2 : list str) (parts : list string) :
  Forall2 (fun part q => quote part = Ok q) key1 parts ->
  Forall2 (fun part q => quote part = Ok q) key2 parts ->
  key1 = key2.
Proof.
  intros H1. revert key2.
  induction H1 as [|part1 q key1 parts Hq _ IH]; inversion 1 as [|part2 ? key2' ? Hq2 Hrest];
    subst; [done|].
  f_equal; [by apply (quote_inj part1 part2 q) | by apply IH].
Qed.

Lemma quote_total (part : str) :
  Forall scalar_value part -> exists q, quote part = Ok q.
Proof.
  intros Hpart. unfold quote.
  rewrite (proj2 (utf8_encode_words part _) (conj Hpart eq_refl)). simpl. eauto.
Qed.

Lemma key_to_str_total (key : list str) :
  Forall (Forall scalar_value) key -> exists s, key_to_str key = Ok s.
Proof.
  intros Hkey.
  assert (exists parts, Forall2 (fun part q => quote part = Ok q) key parts)
    as [parts Hparts].
  { induction Hkey as [|part key Hpart _ [parts IH]]; [by exists []|].
    destruct (quote_total part Hpart) as [q Hq]. exists (q :: parts). by constructor. }
  exists (String.concat ":" parts). apply key_to_str_parts. eauto.
Qed.

(** C10.  Two different keys, each with at least one segment and no empty
    segment, never get the same wire form: whenever [key_to_str] returns
    for both, the two strings differ, and it does return for both when
    their segments hold Unicode scalar values only.  The reason is that
    no quoted segment contains the separator. *)
Theorem key_to_str_injective (key1 key2 : list str) :
  key1 <> [] -> key2 <> [] -> [] ∉ key1 -> [] ∉ key2 -> key1 <> key2 ->
  (forall s1 s2, key_to_str key1 = Ok s1 -> key_to_str key2 = Ok s2 -> s1 <> s2) /\
  (Forall (Forall scalar_value) key1 -> Forall (Forall scalar_value) key2 ->
   exists s1 s2, key_to_str key1 = Ok s1 /\ key_to_str key2 = Ok s2 /\ s1 <> s2) /\
  (forall part q, quote part = Ok q -> ":"%char ∉ chars q).
Proof.
  intros Hne1 Hne2 _ _ Hdiff.
  assert (forall s1 s2, key_to_str key1 = Ok s1 -> key_to_str key2 = Ok s2 -> s1 <> s2)
    as Hinj.
  { intros s1 s2 (parts1 & Hparts1 & ->)%key_to_str_parts
                 (parts2 & Hparts2 & ->)%key_to_str_parts Heq.
    apply concat_colon_inj in Heq.
    - subst parts2. apply Hdiff. by apply (quoted_parts_inj key1 key2 parts1).
    - intros ->. inversion Hparts1. by subst.
    - intros ->. inversion Hparts2. by subst.
    - clear -Hparts1. induction Hparts1; constructor; eauto using quote_no_colon.
    - clear -Hparts2. induction Hparts2; constructor; eauto using quote_no_colon. }
  split; [done|]. split.
  - intros [s1 Hs1]%key_to_str_total [s2 Hs2]%key_to_str_total.
    exists s1, s2. eauto.
  - apply quote_no_colon.
Qed.

Lemma key_to_str_injective_witness :
  exists s1 s2,
    key_to_str [U "a:b"] = Ok s1 /\ key_to_str [U "a"; U "b"] = Ok s2 /\ s1 <> s2.
Proof.
  apply (key_to_str_injective [U "a:b"] [U "a"; U "b"]).
  - discriminate.
  - discriminate.
  - apply (bool_decide_unpack _). vm_compute. exact I.
  - apply (bool_decide_unpack _). vm_compute. exact I.
  - discriminate.
  - repeat constructor; unfold scalar_value; simpl; lia.
  - repeat constructor; unfold scalar_value; simpl; lia.
Defined.

(** The separator inside a segment is escaped, the one between segments is
    not. *)
Example key_to_str_escapes_separator :
  key_to_str [U "a:b"] = Ok "a%3Ab" /\ key_to_str [U "a"; U "b"] = Ok "a:b".
Proof. split; reflexivity. Qed.


(** * Properties of the remaining methods *)

(** ** Entry: get, listen, set *)

Section EntryMethods.
Context {T : Transport} {B : Builtins}.

Lemma response_version_200 (response : Response) (version : Z) :
  response_version response = Ok version -> status_code response = 200.
Proof.
  unfold response_version.
  destruct (raise_if_error (status_code response)) as [[]|] eqn:Hc; [|discriminate].
  intros _. by apply raise_if_error_Ok.
Qed.

(** X1.  [get] sends one GET for the entry's key with its quorum and
    transaction index.  Either the server answered 200 with a version, and
    the entry now caches that version together with the value of the same
    response ([None] when the response has none), which is returned; or
    the call raises and every entry is as before. *)
Theorem Entry_get_all_or_nothing (st : State) (self : nat) (e : Entry) (k : string) :
  entries st !! self = Some e -> key_to_str (_key e) = Ok k ->
  let req := mkRequest GET ("/v2/kv/keys/" +:+ k)
               (quorum_params (_n e) (_r e) (_w e) ++
                [("transaction", optional_int (_transaction e))]) JNone in
  exists r st',
    Entry_get self st = (r, st') /\
    requests st' = requests st ++ [req] /\
    ((exists response version,
        transport_send (requests st) req = Ok response /\
        status_code response = 200 /\
        response_version response = Ok version /\
        r = Ok (response_value response) /\
        entries st' !! self =
          Some (mkEntry (_key e) version (response_value response)
                        (_n e) (_r e) (_w e) (_transaction e)))
     \/ (exists err, r = Raise err /\ entries st' = entries st)).
Proof.
  intros Hself Hk req. rewrite (Entry_get_run st self e k Hself Hk).
  change (entry_request e k GET [] JNone) with req.
  destruct (transport_send (requests st) req) as [response|err] eqn:Hsend.
  - destruct (response_version response) as [version|err] eqn:Hv.
    + eexists _, _. split; [done|]. split; [done|]. left.
      exists response, version.
      repeat split; eauto using response_version_200.
      simpl. by rewrite lookup_insert_eq.
    + eexists _, _. split; [done|]. split; [done|]. right. eauto.
  - eexists _, _. split; [done|]. split; [done|]. right. eauto.
Qed.

(** X2.  [listen] asks for a version above the cached one when the caller
    names none, and passes the timeout on only when there is one.  A 408
    answer raises [TimeoutError] and changes no entry; when [listen]
    returns a value, the entry caches it with the version of the same
    response. *)
Theorem Entry_listen_waits (st : State) (self : nat) (e : Entry) (k : string)
    (wait_version timeout : option Z) :
  entries st !! self = Some e -> key_to_str (_key e) = Ok k ->
  let req := mkRequest GET ("/v2/kv/keys/" +:+ k)
               (quorum_params (_n e) (_r e) (_w e) ++
                [("transaction", optional_int (_transaction e));
                 ("wait-version", PInt (match wait_version with
                                        | Some v => v
                                        | None => _version e
                                        end));
                 ("wait-timeout", match timeout with
                                  | Some t => PSeconds t
                                  | None => PNone
                                  end)]) JNone in
  requests (Entry_listen self wait_version timeout st).2 = requests st ++ [req] /\
  (forall response,
     transport_send (requests st) req = Ok response -> status_code response = 408 ->
     exists st',
       Entry_listen self wait_version timeout st = (Raise TimeoutError, st') /\
       entries st' = entries st) /\
  (forall value st',
     Entry_listen self wait_version timeout st = (Ok value, st') ->
     exists response version,
       transport_send (requests st) req = Ok response /\
       response_version response = Ok version /\
       value = response_value response /\
       entries st' !! self =
         Some (mkEntry (_key e) version value (_n e) (_r e) (_w e) (_transaction e))).
Proof.
  intros Hself Hk req.
  rewrite (Entry_listen_run st self e k wait_version timeout Hself Hk).
  assert (entry_request e k GET
            [("wait-version", PInt (default (_version e) wait_version));
             ("wait-timeout", from_option PSeconds PNone timeout)] JNone = req) as ->.
  { by destruct wait_version, timeout. }
  split; [|split].
  - destruct (transport_send _ _) as [response|]; [|done].
    by destruct (response_version response).
  - intros response -> H408. exists (logged req st).
    unfold response_version. by rewrite H408.
  - intros value st' Hrun.
    destruct (transport_send _ _) as [response|]; [|discriminate].
    destruct (response_version response) as [version|] eqn:Hv; [|discriminate].
    injection Hrun as <- <-. exists response, version.
    repeat split; try done. simpl. by rewrite lookup_insert_eq.
Qed.

(** X3.  [set] is unconditional: it sends one PUT with the new value as
    its body and no [old-version] parameter.  The version it returns is
    the one the server sent with status 200 and is the version the entry
    caches afterwards; when it raises, every entry is as before. *)
Theorem Entry_set_unconditional (st : State) (self : nat) (e : Entry) (k : string)
    (new_value : Json) :
  entries st !! self = Some e -> key_to_str (_key e) = Ok k ->
  let req := mkRequest PUT ("/v2/kv/keys/" +:+ k)
               (quorum_params (_n e) (_r e) (_w e) ++
                [("transaction", optional_int (_transaction e))]) new_value in
  exists r st',
    Entry_set self new_value st = (r, st') /\
    requests st' = requests st ++ [req] /\
    ((exists response version,
        transport_send (requests st) req = Ok response /\
        status_code response = 200 /\
        response_version response = Ok version /\
        r = Ok version /\
        _version <$> entries st' !! self = Some version)
     \/ (exists err, r = Raise err /\ entries st' = entries st)).
Proof.
  intros Hself Hk req. rewrite (Entry_set_run st self e k new_value Hself Hk).
  change (entry_request e k PUT [] new_value) with req.
  destruct (transport_send (requests st) req) as [response|err] eqn:Hsend.
  - destruct (response_version response) as [version|err] eqn:Hv.
    + eexists _, _. split; [done|]. split; [done|]. left.
      exists response, version.
      repeat split; eauto using response_version_200.
      simpl. by rewrite lookup_insert_eq.
    + eexists _, _. split; [done|]. split; [done|]. right. eauto.
  - eexists _, _. split; [done|]. split; [done|]. right. eauto.
Qed.

End EntryMethods.

Lemma Entry_get_all_or_nothing_witness :
  exists r st',
    Entry_get (T := answering 200 (value_body 4 (JInt 12))) (B := strict_int) 0 one_entry
      = (r, st') /\
    requests st' =
      [mkRequest GET "/v2/kv/keys/a"
                 [("n", PInt 3); ("r", PInt 2); ("w", PInt 2); ("transaction", PNone)]
                 JNone].
Proof.
  destruct (Entry_get_all_or_nothing (T := answering 200 (value_body 4 (JInt 12)))
              (B := strict_int) one_entry 0%nat
              (mkEntry [U "a"] 3 (JInt 10) 3 2 2 None) "a" eq_refl eq_refl)
    as (r & st' & Hrun & Hlog & _).
  exists r, st'. split; [exact Hrun | exact Hlog].
Defined.

Lemma Entry_listen_waits_witness :
  exists st',
    Entry_listen (T := answering 408 None) (B := strict_int) 0 None (Some 1500000)
                 one_entry = (Raise TimeoutError, st') /\
    entries st' = entries one_entry.
Proof.
  destruct (Entry_listen_waits (T := answering 408 None) (B := strict_int) one_entry
              0%nat (mkEntry [U "a"] 3 (JInt 10) 3 2 2 None) "a" None (Some 1500000)
              eq_refl eq_refl) as (_ & Htimeout & _).
  exact (Htimeout (mkResponse 408 None) eq_refl eq_refl).
Defined.

Lemma Entry_set_unconditional_witness :
  exists r st',
    Entry_set (T := answering 200 (version_body 4)) (B := strict_int) 0 (JInt 11)
              one_entry = (r, st') /\
    requests st' =
      [mkRequest PUT "/v2/kv/keys/a"
                 [("n", PInt 3); ("r", PInt 2); ("w", PInt 2); ("transaction", PNone)]
                 (JInt 11)].
Proof.
  destruct (Entry_set_unconditional (T := answering 200 (version_body 4))
              (B := strict_int) one_entry 0%nat
              (mkEntry [U "a"] 3 (JInt 10) 3 2 2 None) "a" (JInt 11) eq_refl eq_refl)
    as (r & st' & Hrun & Hlog & _).
  exists r, st'. split; [exact Hrun | exact Hlog].
Defined.

Section EntrySteps.
Context {T : Transport} {B : Builtins}.

Lemma same_identity_refl (e : Entry) : same_identity e e.
Proof. by repeat split. Qed.

Lemma entry_step_none (st : State) (self : nat) (e : Entry) :
  entries st !! self = Some e -> entry_step self e st st.
Proof.
  intros Hself. exists [], e. split; [simpl; lia|]. split; [apply same_identity_refl|].
  rewrite app_nil_r, (insert_id _ _ _ Hself). by destruct st.
Qed.

Lemma entry_step_logged (st : State) (self : nat) (e : Entry) (req : Request) :
  entries st !! self = Some e -> entry_step self e st (logged req st).
Proof.
  intros Hself. exists [req], e. split; [simpl; lia|]. split; [apply same_identity_refl|].
  unfold logged. by rewrite (insert_id _ _ _ Hself).
Qed.

Lemma entry_step_stored (st : State) (self : nat) (e e' : Entry) (req : Request) :
  same_identity e e' -> entry_step self e st (stored self e' (logged req st)).
Proof. intros Hsame. exists [req], e'. split; [simpl; lia|]. by split. Qed.

Lemma Entry_url_fails (st : State) (e : Entry) (err : Exception) :
  key_to_str (_key e) = Raise err -> Entry_url e st = (Raise err, st).
Proof. intros Hk. unfold Entry_url, bind, lift. by rewrite Hk. Qed.

Lemma Entry_methods_unencodable (st : State) (self : nat) (e : Entry) (err : Exception)
    (new_value : Json) (wait_version timeout old_version : option Z) :
  entries st !! self = Some e -> key_to_str (_key e) = Raise err ->
  Entry_get self st = (Raise err, st) /\
  Entry_listen self wait_version timeout st = (Raise err, st) /\
  Entry_set self new_value st = (Raise err, st) /\
  Entry_cas self new_value old_version st = (Raise err, st).
Proof.
  intros Hself Hk.
  repeat split;
    [unfold Entry_get | unfold Entry_listen | unfold Entry_set | unfold Entry_cas];
    unfold bind at 1, load_entry at 1; rewrite Hself;
    unfold bind at 1; by rewrite (Entry_url_fails st e err Hk).
Qed.

Lemma Entry_methods_step (st : State) (self : nat) (e : Entry)
    (new_value : Json) (wait_version timeout old_version : option Z) :
  entries st !! self = Some e ->
  entry_step self e st (Entry_get self st).2 /\
  entry_step self e st (Entry_listen self wait_version timeout st).2 /\
  entry_step self e st (Entry_set self new_value st).2 /\
  entry_step self e st (Entry_cas self new_value old_version st).2.
Proof.
  intros Hself.
  destruct (key_to_str (_key e)) as [k|err] eqn:Hk.
  - rewrite (Entry_get_run st self e k Hself Hk),
            (Entry_listen_run st self e k wait_version timeout Hself Hk),
            (Entry_set_run st self e k new_value Hself Hk),
            (Entry_cas_run st self e k new_value old_version Hself Hk).
    repeat split;
      (destruct (transport_send _ _) as [response|];
       [destruct (response_version response)|]; simpl;
       first [ by apply entry_step_logged
             | apply entry_step_stored; by repeat split ]).
  - destruct (Entry_methods_unencodable st self e err new_value wait_version timeout
                old_version Hself Hk) as (-> & -> & -> & ->).
    repeat split; by apply entry_step_none.
Qed.

(** X4.  No method of an [Entry] changes its key, its quorum or its
    transaction index, and none touches another entry, a transaction or a
    transaction context. *)
Theorem Entry_methods_keep_identity (st : State) (self : nat) (e : Entry)
    (new_value : Json) (wait_version timeout old_version : option Z) :
  entries st !! self = Some e ->
  Forall (fun st' =>
            (exists e', entries st' !! self = Some e' /\ same_identity e e') /\
            (forall other, other <> self -> entries st' !! other = entries st !! other) /\
            transactions st' = transactions st /\ contexts st' = contexts st)
         [(Entry_get self st).2;
          (Entry_listen self wait_version timeout st).2;
          (Entry_set self new_value st).2;
          (Entry_cas self new_value old_version st).2].
Proof.
  intros Hself.
  destruct (Entry_methods_step st self e new_value wait_version timeout old_version Hself)
    as (Hget & Hlisten & Hset & Hcas).
  assert (forall st', entry_step self e st st' ->
            (exists e', entries st' !! self = Some e' /\ same_identity e e') /\
            (forall other, other <> self -> entries st' !! other = entries st !! other) /\
            transactions st' = transactions st /\ contexts st' = contexts st) as Hstep.
  { intros st' (reqs & e' & _ & Hsame & ->). simpl. split; [|split; [|done]].
    - exists e'. by rewrite lookup_insert_eq.
    - intros other Hother. by rewrite lookup_insert_ne. }
  repeat constructor; by apply Hstep.
Qed.

Lemma utf8_encode_unencodable (s : str) :
  Exists (fun c => ~ scalar_value c) s -> utf8_encode s = Raise UnicodeEncodeError.
Proof.
  induction 1 as [c s Hc | c s _ IH]; simpl.
  - destruct (utf8_encode_char c) as [bs|err] eqn:Hbs.
    + exfalso. apply Hc, utf8_encode_char_Ok. eauto.
    + simpl. unfold utf8_encode_char in Hbs. split_ranges; congruence.
  - rewrite IH. destruct (utf8_encode_char c) as [bs|err] eqn:Hbs; simpl; [done|].
    unfold utf8_encode_char in Hbs. split_ranges; congruence.
Qed.

Lemma key_to_str_unencodable (key : list str) :
  Exists (Exists (fun c => ~ scalar_value c)) key ->
  key_to_str key = Raise UnicodeEncodeError.
Proof.
  unfold key_to_str. intros Hkey.
  assert (map_outcome quote key = Raise UnicodeEncodeError) as ->; [|done].
  induction Hkey as [part key Hpart | part key _ IH]; simpl.
  - unfold quote. by rewrite (utf8_encode_unencodable part Hpart).
  - rewrite IH. unfold quote.
    destruct (utf8_encode part) as [bs|err] eqn:Hbs; simpl; [done|].
    destruct (decide (Forall scalar_value part)) as [Hall|Hnot].
    + by rewrite (proj2 (utf8_encode_words part _) (conj Hall eq_refl)) in Hbs.
    + apply not_Forall_Exists in Hnot; [|intros c; unfold scalar_value; apply _].
      rewrite (utf8_encode_unencodable part Hnot) in Hbs. congruence.
Qed.

(** X5.  For an entry whose key has a code point that UTF-8 cannot
    encode (a lone surrogate), each method of the entry, and [get_version]
    for such a key, raises [UnicodeEncodeError] before anything is sent
    and leaves the state as it was. *)
Theorem unencodable_key_sends_nothing (st : State) (self : nat) (e : Entry)
    (new_value : Json) (wait_version timeout old_version : option Z) (n r w : Z) :
  entries st !! self = Some e ->
  Exists (Exists (fun c => ~ scalar_value c)) (_key e) ->
  Entry_get self st = (Raise UnicodeEncodeError, st) /\
  Entry_listen self wait_version timeout st = (Raise UnicodeEncodeError, st) /\
  Entry_set self new_value st = (Raise UnicodeEncodeError, st) /\
  Entry_cas self new_value old_version st = (Raise UnicodeEncodeError, st) /\
  Session_get_version (_key e) n r w st = (Raise UnicodeEncodeError, st).
Proof.
  intros Hself Hkey%key_to_str_unencodable.
  destruct (Entry_methods_unencodable st self e _ new_value wait_version timeout
              old_version Hself Hkey) as (-> & -> & -> & ->).
  repeat split. unfold Session_get_version, bind, lift. by rewrite Hkey.
Qed.

End EntrySteps.

Lemma Entry_methods_keep_identity_witness :
  Forall (fun st' =>
            (exists e', entries st' !! 0%nat = Some e' /\
                        same_identity (mkEntry [U "a"] 3 (JInt 10) 3 2 2 None) e') /\
            (forall other, other <> 0%nat ->
                           entries st' !! other = entries one_entry !! other) /\
            transactions st' = transactions one_entry /\
            contexts st' = contexts one_entry)
         [(Entry_get (T := answering 200 (version_body 4)) (B := strict_int)
                     0 one_entry).2;
          (Entry_listen (T := answering 200 (version_body 4)) (B := strict_int)
                        0 None None one_entry).2;
          (Entry_set (T := answering 200 (version_body 4)) (B := strict_int)
                     0 (JInt 11) one_entry).2;
          (Entry_cas (T := answering 200 (version_body 4)) (B := strict_int)
                     0 (JInt 11) None one_entry).2].
Proof.
  exact (Entry_methods_keep_identity (T := answering 200 (version_body 4))
           (B := strict_int) one_entry 0%nat (mkEntry [U "a"] 3 (JInt 10) 3 2 2 None)
           (JInt 11) None None None eq_refl).
Defined.

Lemma unencodable_key_sends_nothing_witness :
  Entry_init [[0xD800%N]] 0 JNone 3 2 2 None empty_state = (Ok 0%nat, surrogate_entry) /\
  Entry_get (T := answering 200 None) (B := strict_int) 0 surrogate_entry
    = (Raise UnicodeEncodeError, surrogate_entry).
Proof.
  split; [reflexivity|].
  apply (unencodable_key_sends_nothing (T := answering 200 None) (B := strict_int)
           surrogate_entry 0%nat (mkEntry [[0xD800%N]] 0 JNone 3 2 2 None)
           JNone None None None 3 2 2 eq_refl).
  repeat constructor. unfold scalar_value. lia.
Defined.

(** ** Transaction *)

Section TransactionMethods.
Context {T : Transport} {B : Builtins}.

Lemma Transaction_commit_completed (st : State) (self : nat) (t : Transaction) :
  transactions st !! self = Some t -> _completed t = true ->
  Transaction_commit self st = (Ok tt, st).
Proof.
  intros Hself Hflag. unfold Transaction_commit, bind, load_transaction.
  by rewrite Hself, Hflag.
Qed.

Lemma Transaction_rollback_completed (st : State) (self : nat) (t : Transaction) :
  transactions st !! self = Some t -> _completed t = true ->
  Transaction_rollback self st = (Ok tt, st).
Proof.
  intros Hself Hflag. unfold Transaction_rollback, bind, load_transaction.
  by rewrite Hself, Hflag.
Qed.

Lemma Transaction_keep_alive_run (st : State) (self : nat) (t : Transaction) :
  transactions st !! self = Some t ->
  Transaction_keep_alive self st =
    (verdict st (tx_request t "/keep-alive"), logged (tx_request t "/keep-alive") st).
Proof.
  intros Hself. unfold Transaction_keep_alive, bind, load_transaction. rewrite Hself.
  unfold AsyncSession_post, request, lift, verdict, tx_request. simpl.
  by destruct (transport_send _ _).
Qed.

Lemma transaction_step_none (st : State) (self : nat) (t : Transaction) :
  transactions st !! self = Some t -> transaction_step self t st st.
Proof.
  intros Hself. exists [], (_completed t). split; [simpl; lia|]. split; [done|].
  replace (mkTransaction (_index t) (_completed t)) with t by by destruct t.
  rewrite app_nil_r, (insert_id _ _ _ Hself). by destruct st.
Qed.

Lemma transaction_step_logged (st : State) (self : nat) (t : Transaction) (req : Request) :
  transactions st !! self = Some t -> transaction_step self t st (logged req st).
Proof.
  intros Hself. exists [req], (_completed t). split; [simpl; lia|]. split; [done|].
  replace (mkTransaction (_index t) (_completed t)) with t by by destruct t.
  unfold logged. by rewrite (insert_id _ _ _ Hself).
Qed.

Lemma transaction_step_completed (st : State) (self : nat) (t : Transaction)
    (req : Request) :
  transactions st !! self = Some t ->
  transaction_step self t st (completed_in self (logged req st)).
Proof.
  intros Hself. exists [req], true. split; [simpl; lia|]. split; [done|].
  unfold completed_in, logged. simpl. by rewrite (alter_present _ _ _ _ Hself).
Qed.

Lemma Transaction_methods_step (st : State) (self : nat) (t : Transaction) :
  transactions st !! self = Some t ->
  transaction_step self t st (Transaction_commit self st).2 /\
  transaction_step self t st (Transaction_rollback self st).2 /\
  transaction_step self t st (Transaction_keep_alive self st).2.
Proof.
  intros Hself. rewrite (Transaction_keep_alive_run st self t Hself).
  destruct (_completed t) eqn:Hflag.
  - rewrite (Transaction_commit_completed st self t Hself Hflag),
            (Transaction_rollback_completed st self t Hself Hflag).
    repeat split; first [by apply transaction_step_none | by apply transaction_step_logged].
  - rewrite (Transaction_commit_active st self t Hself Hflag),
            (Transaction_rollback_active st self t Hself Hflag).
    repeat split; try by apply transaction_step_logged.
    + destruct (verdict st _) as [[]|];
        first [by apply transaction_step_completed | by apply transaction_step_logged].
    + destruct (verdict st _) as [[]|];
        first [by apply transaction_step_completed | by apply transaction_step_logged].
Qed.

(** X6.  [commit], [rollback] and [keep_alive] never change the index of
    the transaction and never take the completion flag back; they touch
    no other transaction, no entry and no transaction context. *)
Theorem Transaction_methods_monotone (st : State) (self : nat) (t : Transaction) :
  transactions st !! self = Some t ->
  Forall (fun st' =>
            (exists t', transactions st' !! self = Some t' /\
                        _index t' = _index t /\
                        (_completed t = true -> _completed t' = true)) /\
            (forall other, other <> self ->
                           transactions st' !! other = transactions st !! other) /\
            entries st' = entries st /\ contexts st' = contexts st)
         [(Transaction_commit self st).2;
          (Transaction_rollback self st).2;
          (Transaction_keep_alive self st).2].
Proof.
  intros Hself.
  destruct (Transaction_methods_step st self t Hself) as (Hcommit & Hrollback & Hkeep).
  assert (forall st', transaction_step self t st st' ->
            (exists t', transactions st' !! self = Some t' /\
                        _index t' = _index t /\
                        (_completed t = true -> _completed t' = true)) /\
            (forall other, other <> self ->
                           transactions st' !! other = transactions st !! other) /\
            entries st' = entries st /\ contexts st' = contexts st) as Hstep.
  { intros st' (reqs & b & _ & Hflag & ->). simpl. split; [|split; [|done]].
    - eexists. rewrite lookup_insert_eq. by repeat split.
    - intros other Hother. by rewrite lookup_insert_ne. }
  repeat constructor; by apply Hstep.
Qed.

(** X7.  Once one of [commit] and [rollback] has been answered with 200,
    a later [commit] or [rollback] adds nothing: the two calls in a row
    send one request, return normally and leave the transaction
    completed. *)
Theorem completing_twice_sends_once (st : State) (self : nat) (t : Transaction) :
  transactions st !! self = Some t -> _completed t = false ->
  (forall response,
     transport_send (requests st) (tx_request t "/commit") = Ok response ->
     status_code response = 200 ->
     Forall (fun second =>
               (Transaction_commit self;; second) st =
                 (Ok tt, completed_in self (logged (tx_request t "/commit") st)))
            [Transaction_commit self; Transaction_rollback self]) /\
  (forall response,
     transport_send (requests st) (tx_request t "/rollback") = Ok response ->
     status_code response = 200 ->
     Forall (fun second =>
               (Transaction_rollback self;; second) st =
                 (Ok tt, completed_in self (logged (tx_request t "/rollback") st)))
            [Transaction_commit self; Transaction_rollback self]).
Proof.
  intros Hself Hflag.
  assert (forall action,
            transactions (completed_in self (logged (tx_request t action) st)) !! self
            = Some (mkTransaction (_index t) true)) as Hdone.
  { intros action. simpl. by rewrite lookup_alter_eq, Hself. }
  split; intros response Hsend Hcode; repeat constructor; unfold bind.
  - rewrite (Transaction_commit_active st self t Hself Hflag).
    unfold verdict. rewrite Hsend. simpl. rewrite Hcode. simpl.
    by apply (Transaction_commit_completed _ _ _ (Hdone "/commit")).
  - rewrite (Transaction_commit_active st self t Hself Hflag).
    unfold verdict. rewrite Hsend. simpl. rewrite Hcode. simpl.
    by apply (Transaction_rollback_completed _ _ _ (Hdone "/commit")).
  - rewrite (Transaction_rollback_active st self t Hself Hflag).
    unfold verdict. rewrite Hsend. simpl. rewrite Hcode. simpl.
    by apply (Transaction_commit_completed _ _ _ (Hdone "/rollback")).
  - rewrite (Transaction_rollback_active st self t Hself Hflag).
    unfold verdict. rewrite Hsend. simpl. rewrite Hcode. simpl.
    by apply (Transaction_rollback_completed _ _ _ (Hdone "/rollback")).
Qed.

Lemma Entry_init_valid (st : State) (key : list str) (version : Z) (value : Json)
    (n r w : Z) (transaction : option Z) :
  check_key key = Ok tt -> check_nrw n r w = Ok tt ->
  Entry_init key version value n r w transaction st =
    (Ok (fresh (dom (entries st))),
     stored (fresh (dom (entries st))) (mkEntry key version value n r w transaction) st).
Proof. intros Hk Hq. unfold Entry_init, bind, lift. by rewrite Hk, Hq. Qed.

(** X8.  [Transaction.entry] builds, without a request, an entry at
    version 0 with no value that carries the index of the transaction;
    [Transaction.get_entry] then fetches it with that index as the
    [transaction] parameter.  Neither looks at the completion flag. *)
Theorem Transaction_entry_in_scope (st : State) (self : nat) (t : Transaction)
    (key : list str) (n r w : Z) (k : string) :
  transactions st !! self = Some t ->
  check_key key = Ok tt -> check_nrw n r w = Ok tt -> key_to_str key = Ok k ->
  let entry := fresh (dom (entries st)) in
  Transaction_entry self key n r w st =
    (Ok entry, stored entry (mkEntry key 0 JNone n r w (Some (_index t))) st) /\
  requests (Transaction_get_entry self key n r w st).2 =
    requests st ++ [mkRequest GET ("/v2/kv/keys/" +:+ k)
                      (quorum_params n r w ++ [("transaction", PInt (_index t))])
                      JNone].
Proof.
  intros Hself Hkey Hq Hk entry.
  assert (Transaction_entry self key n r w st =
            (Ok entry, stored entry (mkEntry key 0 JNone n r w (Some (_index t))) st))
    as Hentry.
  { unfold Transaction_entry, bind at 1, load_transaction. rewrite Hself.
    by apply Entry_init_valid. }
  split; [done|].
  unfold Transaction_get_entry. unfold bind at 1. rewrite Hentry.
  unfold bind at 1.
  rewrite (Entry_get_run _ entry (mkEntry key 0 JNone n r w (Some (_index t))) k);
    [|simpl; by rewrite lookup_insert_eq | done].
  destruct (transport_send _ _) as [response|]; [|done].
  by destruct (response_version response).
Qed.

(** X9.  [Session.entry], [Session.get_entry], [Transaction.entry] and
    [Transaction.get_entry] raise [ValueError] for a key without segments,
    a key with an empty segment and a quorum outside its bounds, before
    any request and without creating an object. *)
Theorem entry_builders_validate (st : State) (key : list str) (n r w : Z)
    (tx : nat) (t : Transaction) :
  key = [] \/ [] ∈ key \/ ~ (1 <= n <= 127 /\ 1 <= r <= n /\ 1 <= w <= n) ->
  transactions st !! tx = Some t ->
  Forall (fun run => exists msg, run = (Raise (ValueError msg), st))
         [Session_entry key n r w st;
          Session_get_entry key n r w st;
          Transaction_entry tx key n r w st;
          Transaction_get_entry tx key n r w st].
Proof.
  intros Hbad Htx.
  unfold Session_entry, Session_get_entry, Transaction_get_entry, Transaction_entry.
  unfold bind, load_transaction. rewrite Htx.
  destruct (Entry_init_invalid key 0 JNone n r w None st Hbad) as [msg1 ->].
  destruct (Entry_init_invalid key 0 JNone n r w (Some (_index t)) st Hbad) as [msg2 ->].
  repeat constructor; eauto.
Qed.

End TransactionMethods.

Lemma Transaction_methods_monotone_witness :
  Forall (fun st' =>
            (exists t', transactions st' !! 0%nat = Some t' /\
                        _index t' = 7 /\ (true = true -> _completed t' = true)) /\
            (forall other, other <> 0%nat ->
                           transactions st' !! other
                           = transactions (one_transaction true) !! other) /\
            entries st' = entries (one_transaction true) /\
            contexts st' = contexts (one_transaction true))
         [(Transaction_commit (T := answering 200 None) 0 (one_transaction true)).2;
          (Transaction_rollback (T := answering 200 None) 0 (one_transaction true)).2;
          (Transaction_keep_alive (T := answering 200 None) 0 (one_transaction true)).2].
Proof.
  exact (Transaction_methods_monotone (T := answering 200 None) (one_transaction true)
           0%nat (mkTransaction 7 true) eq_refl).
Defined.

Lemma completing_twice_sends_once_witness :
  (Transaction_commit (T := answering 200 None) 0;;
   Transaction_rollback (T := answering 200 None) 0) (one_transaction false) =
    (Ok tt, completed_in 0 (logged (tx_request (mkTransaction 7 false) "/commit")
                                   (one_transaction false))).
Proof.
  destruct (completing_twice_sends_once (T := answering 200 None) (one_transaction false)
              0%nat (mkTransaction 7 false) eq_refl eq_refl) as [Hcommit _].
  pose proof (Hcommit (mkResponse 200 None) eq_refl eq_refl) as Hboth.
  apply Forall_cons in Hboth as [_ Hboth]. apply Forall_cons in Hboth as [Hsecond _].
  exact Hsecond.
Defined.

Lemma Transaction_entry_in_scope_witness :
  requests (Transaction_get_entry (T := answering 412 None) (B := strict_int)
              0 [U "a"] 3 2 2 (one_transaction true)).2 =
    [mkRequest GET "/v2/kv/keys/a"
       [("n", PInt 3); ("r", PInt 2); ("w", PInt 2); ("transaction", PInt 7)] JNone].
Proof.
  apply (Transaction_entry_in_scope (T := answering 412 None) (B := strict_int)
           (one_transaction true) 0%nat (mkTransaction 7 true) [U "a"] 3 2 2 "a");
    reflexivity.
Defined.

Lemma entry_builders_validate_witness :
  Forall (fun run => exists msg, run = (Raise (ValueError msg), one_transaction false))
         [Session_entry [U "a"; []] 3 2 2 (one_transaction false);
          Session_get_entry (T := answering 200 None) (B := strict_int)
                            [U "a"; []] 3 2 2 (one_transaction false);
          Transaction_entry 0 [U "a"; []] 3 2 2 (one_transaction false);
          Transaction_get_entry (T := answering 200 None) (B := strict_int)
                                0 [U "a"; []] 3 2 2 (one_transaction false)].
Proof.
  apply (entry_builders_validate (T := answering 200 None) (B := strict_int)
           (one_transaction false) [U "a"; []] 3 2 2 0%nat (mkTransaction 7 false));
    [|reflexivity].
  right; left. apply (bool_decide_unpack _). vm_compute. exact I.
Defined.

(** ** TransactionContext and Session *)

Section ContextMethods.
Context {T : Transport} {B : Builtins}.

Lemma response_index_200 (response : Response) (index : Z) :
  response_index response = Ok index -> status_code response = 200.
Proof.
  unfold response_index.
  destruct (raise_if_error (status_code response)) as [[]|] eqn:Hc; [|discriminate].
  intros _. by apply raise_if_error_Ok.
Qed.

Lemma Session_transaction_manual_run (st : State) :
  Session_transaction_manual st =
    match transport_send (requests st) begin_request with
    | Raise err => (Raise err, logged begin_request st)
    | Ok response =>
        match response_index response with
        | Raise err => (Raise err, logged begin_request st)
        | Ok index =>
            (Ok (fresh (dom (transactions st))),
             begun (fresh (dom (transactions st))) index (logged begin_request st))
        end
    end.
Proof.
  unfold Session_transaction_manual, bind, AsyncSession_post, request, lift.
  fold begin_request. unfold response_index.
  destruct (transport_send _ _) as [response|]; simpl; [|done].
  destruct (raise_if_error _) as [[]|]; simpl; [|done].
  destruct (Response_json response) as [body|]; simpl; [|done].
  by destruct (obind (getitem body (U "index")) int).
Qed.

Lemma TransactionContext_aenter_run (st : State) (self : nat) :
  contexts st !! self = Some (mkTransactionContext None) ->
  TransactionContext_aenter self st =
    match transport_send (requests st) begin_request with
    | Raise err => (Raise err, logged begin_request st)
    | Ok response =>
        match response_index response with
        | Raise err => (Raise err, logged begin_request st)
        | Ok index =>
            (Ok (fresh (dom (transactions st))),
             entered self (fresh (dom (transactions st)))
                     (begun (fresh (dom (transactions st))) index
                            (logged begin_request st)))
        end
    end.
Proof.
  intros Hself.
  unfold TransactionContext_aenter, bind at 1, load_context. rewrite Hself. simpl.
  unfold bind, AsyncSession_post, request, lift. fold begin_request.
  unfold response_index.
  destruct (transport_send _ _) as [response|]; simpl; [|done].
  destruct (raise_if_error _) as [[]|]; simpl; [|done].
  destruct (Response_json response) as [body|]; simpl; [|done].
  destruct (obind (getitem body (U "index")) int) as [index|]; simpl; [|done].
  unfold update_context, entered, begun, ret. simpl.
  by rewrite (alter_present _ _ _ _ Hself).
Qed.

(** X10.  Entering an idle context sends one request to begin a
    transaction.  On a 200 answer with an index, a new transaction with
    that index, not completed, is created, stored in the context and
    returned; on any failure no transaction is created and the context is
    still idle. *)
Theorem aenter_all_or_nothing (st : State) (self : nat) :
  contexts st !! self = Some (mkTransactionContext None) ->
  let tx := fresh (dom (transactions st)) in
  exists r st',
    TransactionContext_aenter self st = (r, st') /\
    requests st' = requests st ++ [mkRequest POST "/v2/tx" [] JNone] /\
    entries st' = entries st /\
    ((exists response index,
        transport_send (requests st) (mkRequest POST "/v2/tx" [] JNone) = Ok response /\
        status_code response = 200 /\
        response_index response = Ok index /\
        r = Ok tx /\
        transactions st !! tx = None /\
        transactions st' = <[tx := mkTransaction index false]> (transactions st) /\
        contexts st' = <[self := mkTransactionContext (Some tx)]> (contexts st))
     \/ (exists err,
           r = Raise err /\
           transactions st' = transactions st /\ contexts st' = contexts st)).
Proof.
  intros Hself tx. rewrite (TransactionContext_aenter_run st self Hself).
  fold begin_request.
  destruct (transport_send (requests st) begin_request) as [response|err] eqn:Hsend.
  - destruct (response_index response) as [index|err] eqn:Hindex.
    + eexists _, _. split; [done|]. do 2 (split; [done|]). left.
      exists response, index. repeat split; eauto using response_index_200.
      apply not_elem_of_dom, is_fresh.
    + eexists _, _. split; [done|]. do 2 (split; [done|]). right. eauto.
  - eexists _, _. split; [done|]. do 2 (split; [done|]). right. eauto.
Qed.

(** X11.  A context holds one transaction at a time: entering it again
    after a successful entry raises [RuntimeError] without a second
    request, and the transaction of the first entry stays in place. *)
Theorem aenter_twice_fails_fast (st : State) (self : nat) (response : Response)
    (index : Z) :
  contexts st !! self = Some (mkTransactionContext None) ->
  transport_send (requests st) begin_request = Ok response ->
  response_index response = Ok index ->
  exists tx st1,
    TransactionContext_aenter self st = (Ok tx, st1) /\
    (TransactionContext_aenter self;; TransactionContext_aenter self) st =
      (Raise (RuntimeError "This transaction context already in entered state"), st1) /\
    requests st1 = requests st ++ [begin_request] /\
    contexts st1 !! self = Some (mkTransactionContext (Some tx)) /\
    transactions st1 !! tx = Some (mkTransaction index false).
Proof.
  intros Hself Hsend Hindex.
  pose proof (TransactionContext_aenter_run st self Hself) as Hrun.
  rewrite Hsend, Hindex in Hrun.
  eexists _, _. split; [exact Hrun|].
  assert (contexts (entered self (fresh (dom (transactions st)))
                      (begun (fresh (dom (transactions st))) index
                             (logged begin_request st))) !! self
          = Some (mkTransactionContext (Some (fresh (dom (transactions st))))))
    as Hentered by (simpl; by rewrite lookup_insert_eq).
  split; [|split; [done|split; [done|simpl; by rewrite lookup_insert_eq]]].
  unfold bind at 1. rewrite Hrun.
  unfold TransactionContext_aenter, bind, load_context. by rewrite Hentered.
Qed.

(** X12.  When the block has completed the transaction itself, leaving
    the context sends nothing: [__aexit__] returns and the context is idle
    again, whether or not the block raised. *)
Theorem aexit_after_manual_completion (st : State) (self tx : nat) (t : Transaction)
    (exc_type : option Exception) :
  contexts st !! self = Some (mkTransactionContext (Some tx)) ->
  transactions st !! tx = Some t -> _completed t = true ->
  TransactionContext_aexit self exc_type st = (Ok tt, idle self st).
Proof.
  intros Hself Htx Hflag. rewrite (aexit_run st self tx exc_type Hself).
  destruct exc_type; simpl.
  - by rewrite (Transaction_rollback_completed st tx t Htx Hflag).
  - by rewrite (Transaction_commit_completed st tx t Htx Hflag).
Qed.

(** X13.  [async with] around a block that leaves the context and its
    active transaction alone: the exit sends the commit request after a
    block that returned and the rollback request after a block that
    raised.  When the server answers 200, the result or the exception of
    the block comes out unchanged and the context is idle; when the
    completion fails, its error comes out instead. *)
Theorem async_with_scoped {A} (st st0 st1 : State) (ctx tx : nat) (t : Transaction)
    (block : nat -> M A) (r : Outcome A) :
  TransactionContext_aenter ctx st = (Ok tx, st0) ->
  block tx st0 = (r, st1) ->
  contexts st1 !! ctx = Some (mkTransactionContext (Some tx)) ->
  transactions st1 !! tx = Some t -> _completed t = false ->
  let req := tx_request t (match r with Ok _ => "/commit" | Raise _ => "/rollback" end) in
  requests (async_with ctx block st).2 = requests st1 ++ [req] /\
  (forall response,
     transport_send (requests st1) req = Ok response -> status_code response = 200 ->
     async_with ctx block st = (r, idle ctx (completed_in tx (logged req st1)))) /\
  (forall err,
     verdict st1 req = Raise err ->
     async_with ctx block st = (Raise err, logged req st1)).
Proof.
  intros Henter Hblock Hctx Htx Hflag req.
  unfold async_with, bind. rewrite Henter, Hblock.
  assert (forall exc_type,
            TransactionContext_aexit ctx exc_type st1 =
              match verdict st1 (tx_request t (match exc_type with
                                               | None => "/commit"
                                               | Some _ => "/rollback"
                                               end)) with
              | Ok _ => (Ok tt, idle ctx (completed_in tx
                           (logged (tx_request t (match exc_type with
                                                  | None => "/commit"
                                                  | Some _ => "/rollback"
                                                  end)) st1)))
              | Raise err => (Raise err,
                              logged (tx_request t (match exc_type with
                                                    | None => "/commit"
                                                    | Some _ => "/rollback"
                                                    end)) st1)
              end) as Hexit.
  { intros exc_type. rewrite (aexit_run st1 ctx tx exc_type Hctx).
    destruct exc_type; simpl.
    - rewrite (Transaction_rollback_active st1 tx t Htx Hflag).
      by destruct (verdict st1 _) as [[]|].
    - rewrite (Transaction_commit_active st1 tx t Htx Hflag).
      by destruct (verdict st1 _) as [[]|]. }
  destruct r as [a|e]; rewrite Hexit; subst req; simpl.
  - split; [by destruct (verdict st1 _) as [[]|]|]. split.
    + intros response Hsend Hcode. unfold verdict. rewrite Hsend. simpl.
      by rewrite Hcode.
    + by intros err ->.
  - split; [by destruct (verdict st1 _) as [[]|]|]. split.
    + intros response Hsend Hcode. unfold verdict. rewrite Hsend. simpl.
      by rewrite Hcode.
    + by intros err ->.
Qed.

(** X14.  [transaction_manual] sends one request to begin a transaction.
    On a 200 answer with an index it returns a new transaction with that
    index, not completed; on any failure no transaction is created.  It
    touches no entry and no context. *)
Theorem transaction_manual_all_or_nothing (st : State) :
  let tx := fresh (dom (transactions st)) in
  exists r st',
    Session_transaction_manual st = (r, st') /\
    requests st' = requests st ++ [mkRequest POST "/v2/tx" [] JNone] /\
    entries st' = entries st /\ contexts st' = contexts st /\
    ((exists response index,
        transport_send (requests st) (mkRequest POST "/v2/tx" [] JNone) = Ok response /\
        status_code response = 200 /\
        response_index response = Ok index /\
        r = Ok tx /\
        transactions st !! tx = None /\
        transactions st' = <[tx := mkTransaction index false]> (transactions st))
     \/ (exists err, r = Raise err /\ transactions st' = transactions st)).
Proof.
  intros tx. rewrite Session_transaction_manual_run. fold begin_request.
  destruct (transport_send (requests st) begin_request) as [response|err] eqn:Hsend.
  - destruct (response_index response) as [index|err] eqn:Hindex.
    + eexists _, _. split; [done|]. do 3 (split; [done|]). left.
      exists response, index. repeat split; eauto using response_index_200.
      apply not_elem_of_dom, is_fresh.
    + eexists _, _. split; [done|]. do 3 (split; [done|]). right. eauto.
  - eexists _, _. split; [done|]. do 3 (split; [done|]). right. eauto.
Qed.

(** X15.  [get_version] reads only: it creates and changes no object.  It
    sends one GET for the version address with [n], [r] and [w] as given,
    unchecked and without a transaction parameter, and the version it
    returns is the one of a 200 answer. *)
Theorem get_version_reads_only (st : State) (key : list str) (k : string) (n r w : Z) :
  key_to_str key = Ok k ->
  let req := mkRequest GET ("/v2/kv/keys/" +:+ k +:+ "/version")
               (quorum_params n r w) JNone in
  exists res,
    Session_get_version key n r w st =
      (res, mkState (requests st ++ [req]) (entries st) (transactions st) (contexts st)) /\
    forall version,
      res = Ok version <->
      exists response,
        transport_send (requests st) req = Ok response /\
        status_code response = 200 /\
        response_version response = Ok version.
Proof.
  intros Hk req. rewrite (Session_get_version_run st key k n r w Hk).
  change (mkRequest GET ("/v2/kv/keys/" +:+ k +:+ "/version")
            [("n", PInt n); ("r", PInt r); ("w", PInt w)] JNone) with req.
  eexists. split; [done|]. intros version.
  destruct (transport_send (requests st) req) as [response|err]; simpl.
  - split.
    + intros Hv. exists response. eauto using response_version_200.
    + by intros (response' & [= <-] & _ & Hv).
  - split; [discriminate | by intros (? & ? & _)].
Qed.

(** X16.  [Session.get_entry] for a checked key: one GET without a
    transaction index; on a 200 answer with a version the entry it returns
    is a new object that caches the version and the value of that answer,
    with the quorum as given, and the entries that were there are
    untouched. *)
Theorem Session_get_entry_fetches (st : State) (key : list str) (k : string) (n r w : Z)
    (response : Response) (version : Z) :
  check_key key = Ok tt -> check_nrw n r w = Ok tt -> key_to_str key = Ok k ->
  let req := mkRequest GET ("/v2/kv/keys/" +:+ k)
               (quorum_params n r w ++ [("transaction", PNone)]) JNone in
  let entry := fresh (dom (entries st)) in
  transport_send (requests st) req = Ok response ->
  response_version response = Ok version ->
  exists st',
    Session_get_entry key n r w st = (Ok entry, st') /\
    requests st' = requests st ++ [req] /\
    entries st !! entry = None /\
    entries st' !! entry =
      Some (mkEntry key version (response_value response) n r w None) /\
    (forall other, other <> entry -> entries st' !! other = entries st !! other).
Proof.
  intros Hkey Hq Hk req entry Hsend Hv.
  unfold Session_get_entry. unfold bind at 1.
  rewrite (Entry_init_valid st key 0 JNone n r w None Hkey Hq). fold entry.
  unfold bind at 1.
  rewrite (Entry_get_run _ entry (mkEntry key 0 JNone n r w None) k);
    [|simpl; by rewrite lookup_insert_eq | done].
  change (entry_request (mkEntry key 0 JNone n r w None) k GET [] JNone) with req.
  simpl. rewrite Hsend, Hv. eexists. split; [done|]. split; [done|].
  split; [apply not_elem_of_dom, is_fresh|]. simpl. split.
  - by rewrite lookup_insert_eq.
  - intros other Hother. by rewrite !lookup_insert_ne.
Qed.

End ContextMethods.

Lemma aenter_all_or_nothing_witness :
  exists r st',
    TransactionContext_aenter (T := transaction_server) (B := strict_int) 0 idle_state
      = (r, st') /\
    requests st' = [mkRequest POST "/v2/tx" [] JNone].
Proof.
  destruct (aenter_all_or_nothing (T := transaction_server) (B := strict_int)
              idle_state 0%nat eq_refl) as (r & st' & Hrun & Hlog & _).
  exists r, st'. split; [exact Hrun | exact Hlog].
Defined.

Lemma aenter_twice_fails_fast_witness :
  exists tx st1,
    TransactionContext_aenter (T := transaction_server) (B := strict_int) 0 idle_state
      = (Ok tx, st1) /\
    (TransactionContext_aenter (T := transaction_server) (B := strict_int) 0;;
     TransactionContext_aenter (T := transaction_server) (B := strict_int) 0) idle_state
      = (Raise (RuntimeError "This transaction context already in entered state"), st1).
Proof.
  destruct (aenter_twice_fails_fast (T := transaction_server) (B := strict_int)
              idle_state 0%nat (mkResponse 200 (Some (JDict [(U "index", JInt 7)]))) 7
              eq_refl eq_refl eq_refl) as (tx & st1 & Hfirst & Hsecond & _).
  exists tx, st1. split; [exact Hfirst | exact Hsecond].
Defined.

Lemma aexit_after_manual_completion_witness :
  TransactionContext_aexit (T := answering 412 None) 0 None (entered_state true)
    = (Ok tt, idle 0 (entered_state true)).
Proof.
  exact (aexit_after_manual_completion (T := answering 412 None) (entered_state true)
           0%nat 0%nat (mkTransaction 7 true) None eq_refl eq_refl eq_refl).
Defined.

Lemma async_with_scoped_witness :
  async_with (T := transaction_server) (B := strict_int) 0
             (fun _ => raise (A := unit) (RuntimeError "boom")) idle_state
    = (Raise (RuntimeError "boom"),
       idle 0 (completed_in 0
                 (logged (tx_request (mkTransaction 7 false) "/rollback")
                         (entered 0 0 (begun 0 7 (logged begin_request idle_state)))))).
Proof.
  destruct (async_with_scoped (T := transaction_server) (B := strict_int)
              idle_state
              (entered 0 0 (begun 0 7 (logged begin_request idle_state)))
              (entered 0 0 (begun 0 7 (logged begin_request idle_state)))
              0%nat 0%nat (mkTransaction 7 false)
              (fun _ => raise (A := unit) (RuntimeError "boom"))
              (Raise (RuntimeError "boom"))
              eq_refl eq_refl eq_refl eq_refl eq_refl) as (_ & Hdone & _).
  exact (Hdone (mkResponse 200 (Some (JDict [(U "index", JInt 7)]))) eq_refl eq_refl).
Defined.

Lemma get_version_reads_only_witness :
  exists res,
    Session_get_version (T := answering 200 (version_body 4)) (B := strict_int)
                        [U "a"] 0 0 0 one_entry =
      (res, mkState [mkRequest GET "/v2/kv/keys/a/version"
                               [("n", PInt 0); ("r", PInt 0); ("w", PInt 0)] JNone]
                    (entries one_entry) ∅ ∅).
Proof.
  destruct (get_version_reads_only (T := answering 200 (version_body 4))
              (B := strict_int) one_entry [U "a"] "a" 0 0 0 eq_refl)
    as (res & Hrun & _).
  exists res. exact Hrun.
Defined.

Lemma Session_get_entry_fetches_witness :
  exists st',
    Session_get_entry (T := answering 200 (value_body 4 (JInt 12))) (B := strict_int)
                      [U "b"] 3 2 2 one_entry = (Ok 1%nat, st') /\
    entries st' !! 1%nat = Some (mkEntry [U "b"] 4 (JInt 12) 3 2 2 None) /\
    entries st' !! 0%nat = Some (mkEntry [U "a"] 3 (JInt 10) 3 2 2 None).
Proof.
  destruct (Session_get_entry_fetches (T := answering 200 (value_body 4 (JInt 12)))
              (B := strict_int) one_entry [U "b"] "b" 3 2 2
              (mkResponse 200 (value_body 4 (JInt 12))) 4
              eq_refl eq_refl eq_refl eq_refl eq_refl)
    as (st' & Hrun & _ & _ & Hnew & Hold).
  exists st'. split; [exact Hrun|]. split; [exact Hnew|].
  rewrite (Hold 0%nat); [reflexivity | discriminate].
Defined.

(** ** Validation and the wire form *)

(** X17.  The message of [check_key] tells the two faults apart: "key
    must not be empty" is raised exactly for the key without segments,
    "All key parts must not be empty" exactly for a key that has segments
    of which one is empty. *)
Theorem check_key_messages (key : list str) :
  (check_key key = Raise (ValueError "key must not be empty") <-> key = []) /\
  (check_key key = Raise (ValueError "All key parts must not be empty")
   <-> key <> [] /\ [] ∈ key).
Proof.
  destruct key as [|part key].
  - split; split; try done. by intros [? _].
  - unfold check_key.
    change (if (length (part :: key) =? 0)%nat
            then Raise (ValueError "key must not be empty")
            else for_each check_key_part (part :: key))
      with (for_each check_key_part (part :: key)).
    split; split.
    + intros [x [_ Hx]]%for_each_Raise. unfold check_key_part in Hx.
      destruct (length x =? 0)%nat; discriminate.
    + discriminate.
    + intros [x [Hin Hx]]%for_each_Raise. split; [discriminate|].
      unfold check_key_part in Hx. destruct x; [done | discriminate].
    + intros [_ Hin].
      destruct (for_each check_key_part (part :: key)) as [[]|err] eqn:Hrun.
      * rewrite for_each_Ok, Forall_forall in Hrun.
        by apply Hrun, check_key_part_Ok in Hin.
      * apply for_each_Raise in Hrun as [x [_ Hx]]. unfold check_key_part in Hx.
        destruct (length x =? 0)%nat; [|discriminate]. by injection Hx as <-.
Qed.

Lemma safe_byte_small (b : N) : is_safe "/" b = true -> (b < 128)%N.
Proof.
  unfold is_safe. intros [x [Hin Hx]]%existsb_exists.
  apply N.eqb_eq in Hx as ->. vm_compute in Hin.
  repeat (destruct Hin as [<- | Hin]; [done|]). done.
Qed.

Lemma safe_byte_wire (b : N) : is_safe "/" b = true -> wire_char (ascii_of_N b) = true.
Proof.
  unfold is_safe. intros [x [Hin Hx]]%existsb_exists.
  apply N.eqb_eq in Hx as ->. vm_compute in Hin.
  repeat (destruct Hin as [<- | Hin]; [reflexivity|]). done.
Qed.

Lemma hex_digit_wire (d : N) : wire_char (hex_digit d) = true.
Proof.
  unfold hex_digit. generalize (N.to_nat d). intros n.
  do 16 (destruct n as [|n]; [reflexivity|]). by destruct n.
Qed.

Lemma quote_byte_wire (b : N) :
  Forall (fun c => wire_char c = true) (chars (quote_byte "/" b)).
Proof.
  unfold quote_byte. destruct (is_safe "/" b) eqn:Hsafe; simpl.
  - repeat constructor. by apply safe_byte_wire.
  - repeat constructor; apply hex_digit_wire.
Qed.

Lemma quote_wire (part : str) (q : string) :
  quote part = Ok q -> Forall (fun c => wire_char c = true) (chars q).
Proof.
  unfold quote. destruct (utf8_encode part) as [bs|]; simpl; [|discriminate].
  intros [= <-]. rewrite chars_quote_from_bytes.
  induction bs as [|b bs IH]; simpl; [constructor|].
  apply Forall_app. split; [apply quote_byte_wire | done].
Qed.

(** X18.  What [key_to_str] returns is made of ASCII letters and digits
    and of the characters [_ . - ~ / % :] only: nothing in it can end the
    path of the URL it is put into. *)
Theorem key_to_str_alphabet (key : list str) (s : string) :
  key_to_str key = Ok s -> Forall (fun c => wire_char c = true) (chars s).
Proof.
  intros (parts & Hparts & ->)%key_to_str_parts.
  induction Hparts as [|part q key parts Hq _ IH]; [constructor|].
  rewrite chars_concat_colon. apply Forall_app. split; [by apply (quote_wire part)|].
  destruct parts; [constructor|]. by constructor.
Qed.

Lemma utf8_encode_ascii (s : str) :
  Forall (fun c => (c < 128)%N) s -> utf8_encode s = Ok s.
Proof.
  induction 1 as [|c s Hc _ IH]; simpl; [done|].
  unfold utf8_encode_char. destruct (N.ltb_spec c 0x80); [|lia].
  simpl. by rewrite IH.
Qed.

Lemma quote_unreserved (part : str) :
  Forall (fun c => is_safe "/" c = true) part -> quote part = Ok (ascii_text part).
Proof.
  intros Hsafe. unfold quote.
  rewrite utf8_encode_ascii
    by (eapply Forall_impl; [exact Hsafe | apply safe_byte_small]).
  simpl. f_equal. apply chars_inj. rewrite chars_quote_from_bytes.
  unfold ascii_text. rewrite String.list_ascii_of_string_of_list_ascii.
  induction Hsafe as [|c part Hc _ IH]; simpl; [done|].
  unfold quote_byte at 1. rewrite Hc. simpl. by rewrite IH.
Qed.

(** X19.  A key whose segments hold only unreserved characters and
    slashes goes on the wire as it is: its segments joined by colons. *)
Theorem key_to_str_unreserved (key : list str) :
  Forall (Forall (fun c => is_safe "/" c = true)) key ->
  key_to_str key = Ok (String.concat ":" (map ascii_text key)).
Proof.
  intros Hkey. apply key_to_str_parts. exists (map ascii_text key). split; [|done].
  induction Hkey as [|part key Hpart _ IH]; simpl; constructor; [|done].
  by apply quote_unreserved.
Qed.

(** X20.  The wire form of a key with segments has one colon less than
    the key has segments, so the number of segments can be read off it. *)
Theorem key_to_str_separators (key : list str) (s : string) :
  key <> [] -> key_to_str key = Ok s ->
  S (List.length (filter (fun c => c = ":"%char) (chars s))) = List.length key.
Proof.
  intros Hne (parts & Hparts & ->)%key_to_str_parts.
  induction Hparts as [|part q key parts Hq Hparts IH]; [done|].
  rewrite chars_concat_colon, filter_app.
  assert (filter (fun c => c = ":"%char) (chars q) = []) as ->.
  { apply quote_no_colon in Hq. induction (chars q) as [|c l IHl]; [done|].
    apply not_elem_of_cons in Hq as [Hc Hl].
    rewrite filter_cons_False by done. by apply IHl. }
  simpl. destruct Hparts as [|part' q' key' parts' Hq' Hparts']; [done|].
  rewrite filter_cons_True by done. simpl. f_equal. by apply IH.
Qed.

Lemma key_to_str_unreserved_witness :
  key_to_str [U "users"; U "a/b~c"] = Ok "users:a/b~c".
Proof.
  apply (key_to_str_unreserved [U "users"; U "a/b~c"]).
  repeat constructor.
Defined.

Lemma key_to_str_alphabet_witness :
  Forall (fun c => wire_char c = true) (chars "a%20b%3Ac:d").
Proof. apply (key_to_str_alphabet [U "a b:c"; U "d"]). reflexivity. Defined.

Lemma key_to_str_separators_witness :
  S (List.length (filter (fun c => c = ":"%char) (chars "a%3Ab:c"))) = 2%nat.
Proof.
  apply (key_to_str_separators [U "a:b"; U "c"] "a%3Ab:c"); [discriminate | reflexivity].
Defined.

(** ** Programs: what holds along every sequence of calls *)

Section Counting.
Context {T : Transport} {B : Builtins}.

Lemma sends_le {A} (a b : nat) (m : M A) : (a <= b)%nat -> sends a m -> sends b m.
Proof. intros Hle Hm st. destruct (Hm st) as (reqs & Hlen & Heq). exists reqs. split; [lia | done]. Qed.

Lemma sends_still {A} (m : M A) : (forall st, requests (m st).2 = requests st) -> sends 0 m.
Proof. intros Hm st. exists []. split; [done|]. by rewrite Hm, app_nil_r. Qed.

Lemma sends_ret {A} (a : A) : sends 0 (ret a).
Proof. by apply sends_still. Qed.

Lemma sends_raise {A} (e : Exception) : sends 0 (raise (A := A) e).
Proof. by apply sends_still. Qed.

Lemma sends_lift {A} (o : Outcome A) : sends 0 (lift o).
Proof. by apply sends_still. Qed.

Lemma sends_load_entry (self : nat) : sends 0 (load_entry self).
Proof. apply sends_still. intros st. unfold load_entry. by destruct (entries st !! self). Qed.

Lemma sends_load_transaction (self : nat) : sends 0 (load_transaction self).
Proof.
  apply sends_still. intros st. unfold load_transaction.
  by destruct (transactions st !! self).
Qed.

Lemma sends_load_context (self : nat) : sends 0 (load_context self).
Proof. apply sends_still. intros st. unfold load_context. by destruct (contexts st !! self). Qed.

Lemma sends_update_entry (self : nat) (f : Entry -> Entry) : sends 0 (update_entry self f).
Proof. by apply sends_still. Qed.

Lemma sends_update_transaction (self : nat) (f : Transaction -> Transaction) :
  sends 0 (update_transaction self f).
Proof. by apply sends_still. Qed.

Lemma sends_update_context (self : nat) (f : TransactionContext -> TransactionContext) :
  sends 0 (update_context self f).
Proof. by apply sends_still. Qed.

Lemma sends_new_entry (e : Entry) : sends 0 (new_entry e).
Proof. by apply sends_still. Qed.

Lemma sends_new_transaction (t : Transaction) : sends 0 (new_transaction t).
Proof. by apply sends_still. Qed.

Lemma sends_new_context (c : TransactionContext) : sends 0 (new_context c).
Proof. by apply sends_still. Qed.

Lemma sends_request (req : Request) : sends 1 (request req).
Proof. intros st. exists [req]. by split. Qed.

Lemma sends_bind {A C} (a b : nat) (m : M A) (k : A -> M C) :
  sends a m -> (forall x, sends b (k x)) -> sends (a + b) (bind m k).
Proof.
  intros Hm Hk st. unfold bind. destruct (Hm st) as (reqs & Hlen & Heq).
  destruct (m st) as [[x|e] st1]; simpl in *.
  - destruct (Hk x st1) as (reqs' & Hlen' & Heq'). exists (reqs ++ reqs').
    rewrite length_app, Heq', Heq, <- app_assoc. split; [lia | done].
  - exists reqs. split; [lia | done].
Qed.

Lemma sends_bind_0 {A C} (n : nat) (m : M A) (k : A -> M C) :
  sends 0 m -> (forall x, sends n (k x)) -> sends n (bind m k).
Proof. intros Hm Hk. by apply (sends_bind 0 n). Qed.

Lemma sends_bind_1 {A C} (m : M A) (k : A -> M C) :
  sends 1 m -> (forall x, sends 0 (k x)) -> sends 1 (bind m k).
Proof. intros Hm Hk. by apply (sends_bind 1 0). Qed.

Ltac silent :=
  repeat first
    [ apply sends_ret | apply sends_raise | apply sends_lift
    | apply sends_load_entry | apply sends_load_transaction | apply sends_load_context
    | apply sends_update_entry | apply sends_update_transaction
    | apply sends_update_context
    | apply sends_new_entry | apply sends_new_transaction | apply sends_new_context
    | apply sends_bind_0; [|intros ?] ].

Lemma sends_Entry_init key version value n r w transaction :
  sends 0 (Entry_init key version value n r w transaction).
Proof. unfold Entry_init. silent. Qed.

Lemma sends_Entry_url (e : Entry) : sends 0 (Entry_url e).
Proof. unfold Entry_url. silent. Qed.

Ltac one_request :=
  apply sends_bind_1;
  [ first [apply sends_request | unfold AsyncSession_get, AsyncSession_put,
                                       AsyncSession_post; apply sends_request]
  | intros ?; silent ].

Lemma sends_Entry_get (self : nat) : sends 1 (Entry_get self).
Proof.
  unfold Entry_get. apply sends_bind_0; [silent|intros e].
  apply sends_bind_0; [apply sends_Entry_url|intros url]. one_request.
Qed.

Lemma sends_Entry_listen (self : nat) wait_version timeout :
  sends 1 (Entry_listen self wait_version timeout).
Proof.
  unfold Entry_listen. apply sends_bind_0; [silent|intros e].
  apply sends_bind_0; [apply sends_Entry_url|intros url]. one_request.
Qed.

Lemma sends_Entry_set (self : nat) new_value : sends 1 (Entry_set self new_value).
Proof.
  unfold Entry_set. apply sends_bind_0; [silent|intros e].
  apply sends_bind_0; [apply sends_Entry_url|intros url]. one_request.
Qed.

Lemma sends_Entry_cas (self : nat) new_value old_version :
  sends 1 (Entry_cas self new_value old_version).
Proof.
  unfold Entry_cas. apply sends_bind_0; [silent|intros e].
  apply sends_bind_0; [apply sends_Entry_url|intros url]. one_request.
Qed.

Lemma sends_Transaction_commit (self : nat) : sends 1 (Transaction_commit self).
Proof.
  unfold Transaction_commit. apply sends_bind_0; [silent|intros t].
  destruct (negb (_completed t)); [one_request | apply (sends_le 0); [lia | silent]].
Qed.

Lemma sends_Transaction_rollback (self : nat) : sends 1 (Transaction_rollback self).
Proof.
  unfold Transaction_rollback. apply sends_bind_0; [silent|intros t].
  destruct (negb (_completed t)); [one_request | apply (sends_le 0); [lia | silent]].
Qed.

Lemma sends_Transaction_keep_alive (self : nat) : sends 1 (Transaction_keep_alive self).
Proof. unfold Transaction_keep_alive. apply sends_bind_0; [silent|intros t]. one_request. Qed.

Lemma sends_begin :
  sends 1 (response <- AsyncSession_post "/v2/tx";;
           lift (raise_if_error (status_code response));;
           body <- lift (Response_json response);;
           index <- lift (obind (getitem body (U "index")) int);;
           Transaction_init index).
Proof. one_request. Qed.

Lemma sends_Transaction_entry (self : nat) key n r w :
  sends 0 (Transaction_entry self key n r w).
Proof.
  unfold Transaction_entry. apply sends_bind_0; [silent | intros; apply sends_Entry_init].
Qed.

Lemma sends_Transaction_get_entry (self : nat) key n r w :
  sends 1 (Transaction_get_entry self key n r w).
Proof.
  unfold Transaction_get_entry.
  apply sends_bind_0; [apply sends_Transaction_entry|intros entry].
  apply sends_bind_1; [apply sends_Entry_get | intros; silent].
Qed.

Lemma sends_aenter (self : nat) : sends 1 (TransactionContext_aenter self).
Proof.
  unfold TransactionContext_aenter. apply sends_bind_0; [silent|intros c].
  destruct (_tx c); [apply (sends_le 0); [lia | silent]|]. one_request.
Qed.

Lemma sends_aexit (self : nat) exc_type : sends 1 (TransactionContext_aexit self exc_type).
Proof.
  unfold TransactionContext_aexit. apply sends_bind_0; [silent|intros c].
  apply sends_bind_1; [|intros; silent].
  destruct exc_type, (_tx c);
    first [ apply sends_Transaction_commit | apply sends_Transaction_rollback
          | apply (sends_le 0); [lia | silent] ].
Qed.

Lemma sends_Session_transaction : sends 0 Session_transaction.
Proof. unfold Session_transaction, TransactionContext_init. silent. Qed.

Lemma sends_Session_get_entry key n r w : sends 1 (Session_get_entry key n r w).
Proof.
  unfold Session_get_entry. apply sends_bind_0; [apply sends_Entry_init|intros entry].
  apply sends_bind_1; [apply sends_Entry_get | intros; silent].
Qed.

Lemma sends_Session_get_version key n r w : sends 1 (Session_get_version key n r w).
Proof.
  unfold Session_get_version. apply sends_bind_0; [silent|intros key']. one_request.
Qed.

Lemma sends_Session_entry key n r w : sends 0 (Session_entry key n r w).
Proof. unfold Session_entry. apply sends_Entry_init. Qed.

Lemma sends_Session_transaction_manual : sends 1 Session_transaction_manual.
Proof. unfold Session_transaction_manual. apply sends_begin. Qed.

Lemma sends_call (c : Call) :
  sends 1 (fun st => (Ok tt, run_call c st)).
Proof.
  assert (forall A (m : M A), sends 1 m -> sends 1 (fun st => (Ok tt, (m st).2)))
    as Hstate by (intros A m Hm st; exact (Hm st)).
  assert (forall A (m : M A), sends 0 m -> sends 1 (fun st => (Ok tt, (m st).2)))
    as Hsilent by (intros A m Hm; apply Hstate, (sends_le 0); [lia | done]).
  destruct c; cbn [run_call];
    first [ apply Hstate;
            first [ apply sends_Entry_get | apply sends_Entry_listen
                  | apply sends_Entry_set | apply sends_Entry_cas
                  | apply sends_Transaction_commit | apply sends_Transaction_rollback
                  | apply sends_Transaction_keep_alive
                  | apply sends_Transaction_get_entry
                  | apply sends_aenter | apply sends_aexit
                  | apply sends_Session_transaction_manual
                  | apply sends_Session_get_entry | apply sends_Session_get_version ]
          | apply Hsilent;
            first [ apply sends_Entry_init | apply sends_Transaction_entry
                  | apply sends_Session_transaction | apply sends_Session_entry ] ].
Qed.

(** X21.  The client does not retry and does not rewrite history: every
    call of a constructor or method hands at most one request to the
    transport and leaves the earlier requests in place, so a program of
    [k] calls has sent at most [k] requests. *)
Theorem calls_send_at_most_once (cs : list Call) (st : State) :
  exists reqs,
    requests (run_calls cs st) = requests st ++ reqs /\
    (List.length reqs <= List.length cs)%nat.
Proof.
  revert st. induction cs as [|c cs IH]; intros st; simpl.
  - exists []. by rewrite app_nil_r.
  - destruct (sends_call c st) as (reqs & Hlen & Heq). simpl in Heq.
    destruct (IH (run_call c st)) as (reqs' & Heq' & Hlen').
    exists (reqs ++ reqs'). unfold run_calls in *.
    rewrite Heq', Heq, <- app_assoc, length_app. split; [done | lia].
Qed.

End Counting.

Section Evolution.
Context {T : Transport} {B : Builtins}.

Lemma valid_entry_identity (e e' : Entry) :
  same_identity e e' -> valid_entry e -> valid_entry e'.
Proof.
  intros (Hk & Hn & Hr & Hw & _) He. unfold valid_entry. by rewrite Hk, Hn, Hr, Hw.
Qed.

Lemma same_identity_trans (e1 e2 e3 : Entry) :
  same_identity e1 e2 -> same_identity e2 e3 -> same_identity e1 e3.
Proof.
  intros (? & ? & ? & ? & ?) (? & ? & ? & ? & ?). repeat split; congruence.
Qed.

Lemma evolves_refl (st : State) : evolves st st.
Proof.
  split; [|split; [|done]].
  - intros self e He. exists e. split; [done | apply same_identity_refl].
  - intros self t Ht. by exists t.
Qed.

Lemma evolves_trans (st1 st2 st3 : State) :
  evolves st1 st2 -> evolves st2 st3 -> evolves st1 st3.
Proof.
  intros (He12 & Ht12 & Hv12) (He23 & Ht23 & Hv23). split; [|split; [|tauto]].
  - intros self e He. destruct (He12 self e He) as (e2 & He2 & Hsame2).
    destruct (He23 self e2 He2) as (e3 & He3 & Hsame3).
    exists e3. split; [done | by apply (same_identity_trans e e2 e3)].
  - intros self t Ht. destruct (Ht12 self t Ht) as (t2 & Ht2 & Hi2 & Hc2).
    destruct (Ht23 self t2 Ht2) as (t3 & Ht3 & Hi3 & Hc3).
    exists t3. split; [done|]. split; [congruence | tauto].
Qed.

Lemma evolves_same_objects (st st' : State) :
  entries st' = entries st -> transactions st' = transactions st -> evolves st st'.
Proof.
  intros He Ht. split; [|split].
  - intros self e Hself. exists e. rewrite He. split; [done | apply same_identity_refl].
  - intros self t Hself. exists t. by rewrite Ht.
  - unfold valid_store. by rewrite He.
Qed.

Lemma keeps_still {A} (m : M A) :
  (forall st, entries (m st).2 = entries st /\ transactions (m st).2 = transactions st) ->
  keeps evolves m.
Proof. intros Hm st. destruct (Hm st). by apply evolves_same_objects. Qed.

Lemma keeps_bind {A C} (m : M A) (k : A -> M C) :
  keeps evolves m -> (forall x, keeps evolves (k x)) -> keeps evolves (bind m k).
Proof.
  intros Hm Hk st. unfold bind. pose proof (Hm st) as Hst.
  destruct (m st) as [[x|e] st1]; simpl in *; [|done].
  exact (evolves_trans _ _ _ Hst (Hk x st1)).
Qed.

Lemma keeps_load_entry (self : nat) : keeps evolves (load_entry self).
Proof. apply keeps_still. intros st. unfold load_entry. by destruct (entries st !! self). Qed.

Lemma keeps_load_transaction (self : nat) : keeps evolves (load_transaction self).
Proof.
  apply keeps_still. intros st. unfold load_transaction.
  by destruct (transactions st !! self).
Qed.

Lemma keeps_load_context (self : nat) : keeps evolves (load_context self).
Proof. apply keeps_still. intros st. unfold load_context. by destruct (contexts st !! self). Qed.

Lemma keeps_update_entry (self : nat) (f : Entry -> Entry) :
  (forall e, same_identity e (f e)) -> keeps evolves (update_entry self f).
Proof.
  intros Hf st. unfold update_entry. simpl. split; [|split]; simpl.
  - intros self' e He. destruct (decide (self = self')) as [<-|Hne].
    + exists (f e). by rewrite lookup_alter_eq, He.
    + exists e. rewrite lookup_alter_ne by done. split; [done | apply same_identity_refl].
  - intros self' t Ht. by exists t.
  - intros Hvalid self' e' He'. simpl in He'.
    destruct (decide (self = self')) as [<-|Hne].
    + rewrite lookup_alter_eq in He'.
      destruct (entries st !! self) as [e|] eqn:He; [|discriminate].
      injection He' as <-. apply (valid_entry_identity e); [done | by apply (Hvalid self)].
    + rewrite lookup_alter_ne in He' by done. by apply (Hvalid self').
Qed.

Lemma keeps_new_entry (e : Entry) : valid_entry e -> keeps evolves (new_entry e).
Proof.
  intros He st. unfold new_entry. simpl.
  pose proof (is_fresh (dom (entries st))) as Hfresh.
  rewrite elem_of_dom in Hfresh.
  split; [|split]; simpl.
  - intros self e0 He0. exists e0. split; [|apply same_identity_refl].
    rewrite lookup_insert_ne; [done|]. intros Heq. apply Hfresh. rewrite Heq. eauto.
  - intros self t Ht. by exists t.
  - intros Hvalid self e0 He0. simpl in He0.
    destruct (decide (fresh (dom (entries st)) = self)) as [<-|Hne].
    + rewrite lookup_insert_eq in He0. by injection He0 as <-.
    + rewrite lookup_insert_ne in He0 by done. by apply (Hvalid self).
Qed.

Lemma keeps_update_transaction (self : nat) :
  keeps evolves (update_transaction self (set_completed true)).
Proof.
  intros st. unfold update_transaction. split; [|split; [|done]]; simpl.
  - intros self' e He. exists e. split; [done | apply same_identity_refl].
  - intros self' t Ht. destruct (decide (self = self')) as [<-|Hne].
    + exists (set_completed true t). by rewrite lookup_alter_eq, Ht.
    + exists t. by rewrite lookup_alter_ne.
Qed.

Lemma keeps_new_transaction (t : Transaction) : keeps evolves (new_transaction t).
Proof.
  intros st. unfold new_transaction.
  pose proof (is_fresh (dom (transactions st))) as Hfresh.
  rewrite elem_of_dom in Hfresh.
  split; [|split; [|done]]; simpl.
  - intros self e He. exists e. split; [done | apply same_identity_refl].
  - intros self t0 Ht0. exists t0. split; [|done].
    rewrite lookup_insert_ne; [done|]. intros Heq. apply Hfresh. rewrite Heq. eauto.
Qed.

Ltac steady :=
  repeat first
    [ apply keeps_load_entry | apply keeps_load_transaction | apply keeps_load_context
    | apply keeps_update_transaction | apply keeps_new_transaction
    | apply keeps_update_entry; intros ?; by repeat split
    | apply keeps_bind; [|intros ?]
    | apply keeps_still; intros ?; by split ].

Lemma keeps_Entry_init key version value n r w transaction :
  keeps evolves (Entry_init key version value n r w transaction).
Proof.
  intros st. unfold Entry_init, bind, lift.
  destruct (check_key key) as [[]|] eqn:Hk; [|apply evolves_refl].
  destruct (check_nrw n r w) as [[]|] eqn:Hq; [|apply evolves_refl].
  by apply keeps_new_entry.
Qed.

Lemma keeps_Entry_get (self : nat) : keeps evolves (Entry_get self).
Proof. unfold Entry_get, Entry_url. steady. Qed.

Lemma keeps_Entry_listen (self : nat) wait_version timeout :
  keeps evolves (Entry_listen self wait_version timeout).
Proof. unfold Entry_listen, Entry_url. steady. Qed.

Lemma keeps_Entry_set (self : nat) new_value : keeps evolves (Entry_set self new_value).
Proof. unfold Entry_set, Entry_url. steady. Qed.

Lemma keeps_Entry_cas (self : nat) new_value old_version :
  keeps evolves (Entry_cas self new_value old_version).
Proof. unfold Entry_cas, Entry_url. steady. Qed.

Lemma keeps_Transaction_commit (self : nat) : keeps evolves (Transaction_commit self).
Proof.
  unfold Transaction_commit. apply keeps_bind; [steady|intros t].
  destruct (negb (_completed t)); steady.
Qed.

Lemma keeps_Transaction_rollback (self : nat) : keeps evolves (Transaction_rollback self).
Proof.
  unfold Transaction_rollback. apply keeps_bind; [steady|intros t].
  destruct (negb (_completed t)); steady.
Qed.

Lemma keeps_Transaction_keep_alive (self : nat) :
  keeps evolves (Transaction_keep_alive self).
Proof. unfold Transaction_keep_alive. steady. Qed.

Lemma keeps_Transaction_entry (self : nat) key n r w :
  keeps evolves (Transaction_entry self key n r w).
Proof.
  unfold Transaction_entry. apply keeps_bind; [steady | intros; apply keeps_Entry_init].
Qed.

Lemma keeps_Transaction_get_entry (self : nat) key n r w :
  keeps evolves (Transaction_get_entry self key n r w).
Proof.
  unfold Transaction_get_entry.
  apply keeps_bind; [apply keeps_Transaction_entry|intros entry].
  apply keeps_bind; [apply keeps_Entry_get | intros; steady].
Qed.

Lemma keeps_begin :
  keeps evolves (response <- AsyncSession_post "/v2/tx";;
                 lift (raise_if_error (status_code response));;
                 body <- lift (Response_json response);;
                 index <- lift (obind (getitem body (U "index")) int);;
                 Transaction_init index).
Proof. unfold Transaction_init. steady. Qed.

Lemma keeps_aenter (self : nat) : keeps evolves (TransactionContext_aenter self).
Proof.
  unfold TransactionContext_aenter. apply keeps_bind; [steady|intros c].
  destruct (_tx c); [steady|]. unfold Transaction_init. steady.
Qed.

Lemma keeps_aexit (self : nat) exc_type :
  keeps evolves (TransactionContext_aexit self exc_type).
Proof.
  unfold TransactionContext_aexit. apply keeps_bind; [steady|intros c].
  apply keeps_bind; [|intros; steady].
  destruct exc_type, (_tx c);
    first [apply keeps_Transaction_commit | apply keeps_Transaction_rollback | steady].
Qed.

Lemma keeps_Session_get_entry key n r w : keeps evolves (Session_get_entry key n r w).
Proof.
  unfold Session_get_entry. apply keeps_bind; [apply keeps_Entry_init|intros entry].
  apply keeps_bind; [apply keeps_Entry_get | intros; steady].
Qed.

Lemma keeps_Session_get_version key n r w :
  keeps evolves (Session_get_version key n r w).
Proof. unfold Session_get_version. steady. Qed.

Lemma evolves_call (c : Call) (st : State) : evolves st (run_call c st).
Proof.
  destruct c; cbn [run_call];
    first [ apply keeps_Entry_init | apply keeps_Entry_get | apply keeps_Entry_listen
          | apply keeps_Entry_set | apply keeps_Entry_cas
          | apply keeps_Transaction_commit | apply keeps_Transaction_rollback
          | apply keeps_Transaction_keep_alive
          | apply keeps_Transaction_entry | apply keeps_Transaction_get_entry
          | apply keeps_aenter | apply keeps_aexit
          | apply keeps_begin
          | apply keeps_Session_get_entry | apply keeps_Session_get_version
          | idtac ].
  - unfold Session_transaction, TransactionContext_init. by apply evolves_same_objects.
Qed.

Lemma evolves_calls (cs : list Call) (st : State) : evolves st (run_calls cs st).
Proof.
  revert st. induction cs as [|c cs IH]; intros st; [apply evolves_refl|].
  exact (evolves_trans _ _ _ (evolves_call c st) (IH (run_call c st))).
Qed.


(** X23.  Objects last, and what identifies them does not change: after
    any sequence of calls an entry that was in the store is still there
    with its key, quorum and transaction index, and a transaction that
    was in the store is still there with its index and, if it was
    completed, completed. *)
Theorem objects_persist (cs : list Call) (st : State) :
  (forall self e, entries st !! self = Some e ->
     exists e', entries (run_calls cs st) !! self = Some e' /\ same_identity e e') /\
  (forall self t, transactions st !! self = Some t ->
     exists t', transactions (run_calls cs st) !! self = Some t' /\
                _index t' = _index t /\
                (_completed t = true -> _completed t' = true)).
Proof. destruct (evolves_calls cs st) as (He & Ht & _). by split. Qed.

End Evolution.


(** ** Answers that lack a version *)

Section MalformedAnswers.
Context {T : Transport} {B : Builtins}.

(** X24.  A 200 answer whose body is a dictionary without a version makes
    [get] and [set] raise [KeyError] for the missing version; nothing of
    the answer is cached, not even a value it carries. *)
Theorem answer_without_version (st : State) (self : nat) (e : Entry) (k : string)
    (new_value : Json) (d : list (str * Json)) :
  entries st !! self = Some e -> key_to_str (_key e) = Ok k ->
  dict_lookup (U "version") d = None ->
  let get_req := mkRequest GET ("/v2/kv/keys/" +:+ k)
                   (quorum_params (_n e) (_r e) (_w e) ++
                    [("transaction", optional_int (_transaction e))]) JNone in
  let put_req := mkRequest PUT ("/v2/kv/keys/" +:+ k)
                   (quorum_params (_n e) (_r e) (_w e) ++
                    [("transaction", optional_int (_transaction e))]) new_value in
  (transport_send (requests st) get_req = Ok (mkResponse 200 (Some (JDict d))) ->
   exists st',
     Entry_get self st = (Raise (KeyError (U "version")), st') /\
     entries st' = entries st) /\
  (transport_send (requests st) put_req = Ok (mkResponse 200 (Some (JDict d))) ->
   exists st',
     Entry_set self new_value st = (Raise (KeyError (U "version")), st') /\
     entries st' = entries st).
Proof.
  intros Hself Hk Hd get_req put_req.
  assert (response_version (mkResponse 200 (Some (JDict d)))
          = Raise (KeyError (U "version"))) as Hv.
  { unfold response_version, Response_json, getitem. simpl. by rewrite Hd. }
  split; intros Hsend.
  - rewrite (Entry_get_run st self e k Hself Hk).
    change (entry_request e k GET [] JNone) with get_req.
    rewrite Hsend, Hv. by eexists.
  - rewrite (Entry_set_run st self e k new_value Hself Hk).
    change (entry_request e k PUT [] new_value) with put_req.
    rewrite Hsend, Hv. by eexists.
Qed.

End MalformedAnswers.

Lemma answer_without_version_witness :
  exists st',
    Entry_get (T := answering 200 (Some (JDict [(U "value", JInt 12)])))
              (B := strict_int) 0 one_entry
      = (Raise (KeyError (U "version")), st') /\
    entries st' = entries one_entry.
Proof.
  destruct (answer_without_version
              (T := answering 200 (Some (JDict [(U "value", JInt 12)])))
              (B := strict_int) one_entry 0%nat
              (mkEntry [U "a"] 3 (JInt 10) 3 2 2 None) "a" JNone
              [(U "value", JInt 12)] eq_refl eq_refl eq_refl) as [Hget _].
  exact (Hget eq_refl).
Defined.
